(** * svelte-http-client: the Promisable store and the HTTP verb helpers

    A shallow embedding of [src/lib/index.ts].  The library wraps a
    promise in a Svelte store ([promisable]) and builds the HTTP verb
    helpers and the [SvelteHttpClient] class on top of [fetch].

    The embedding has three layers:
    - JavaScript data: values, object literals with spread,
      [JSON.stringify], which the verbs call, a JSON parser to write the
      responses of the examples, [Headers.get], [String.includes];
    - the host: a heap of promises with reaction lists, the microtask
      queue, the Svelte [readable] store, the record of issued [fetch]
      requests and a log of caller-visible invocations;
    - the library itself, function by function. *)

From Stdlib Require Import ZArith String Ascii List Lia Bool.
From stdpp Require Import base option list pretty.
Import ListNotations.

Local Open Scope string_scope.
Local Open Scope Z_scope.

(** ** JavaScript values *)

(** Identity of a promise: its index in the heap. *)
Abbreviation pid := nat (only parsing).

#[local] Set Warnings "-register-all".

(** Values.  Numbers are integers here (status codes, JSON integers);
    objects are association lists in insertion order, as
    [JSON.stringify] and spread see them.  [VHttpError] is an instance
    of the class [HttpError]; [VError] is a host error such as
    [SyntaxError] or [TypeError].

    [VResponse] is a [Response], with the part of it that the library
    reads: [ok], [status], [statusText], [headers], and the body as
    the host hands it out: the text that [text()] resolves to and the
    value that [json()] resolves to, [None] when [json()] rejects with
    a [SyntaxError].  Reading and parsing the body is the host's
    work, not the library's. *)
Inductive val :=
| VUndefined
| VNull
| VBool (b : bool)
| VNum (n : Z)
| VStr (s : string)
| VArr (items : list val)
| VObj (fields : list (string * val))
| VResponse (r : response)
| VHttpError (name message : string) (status : Z) (statusText : string) (body : val)
| VError (name message : string)
| VPromise (p : pid)
with response :=
| new_Response (ok : bool) (status : Z) (statusText : string)
    (headers : list (string * string)) (bodyText : string) (bodyJson : option val).

Definition ok (r : response) : bool :=
  match r with new_Response x _ _ _ _ _ => x end.
Definition status (r : response) : Z :=
  match r with new_Response _ x _ _ _ _ => x end.
Definition statusText (r : response) : string :=
  match r with new_Response _ _ x _ _ _ => x end.
Definition headers (r : response) : list (string * string) :=
  match r with new_Response _ _ _ x _ _ => x end.
Definition bodyText (r : response) : string :=
  match r with new_Response _ _ _ _ x _ => x end.
Definition bodyJson (r : response) : option val :=
  match r with new_Response _ _ _ _ _ x => x end.

(** An object literal, such as a [RequestInit]. *)
Definition obj := list (string * val).

(** [o[k]] *)
Fixpoint obj_get (k : string) (o : obj) : option val :=
  match o with
  | [] => None
  | (k', v) :: o' => if String.eqb k k' then Some v else obj_get k o'
  end.

(** [o[k] = v]: an existing key keeps its position, a new key goes last. *)
Fixpoint obj_set (k : string) (v : val) (o : obj) : obj :=
  match o with
  | [] => [(k, v)]
  | (k', v') :: o' =>
      if String.eqb k k' then (k', v) :: o' else (k', v') :: obj_set k v o'
  end.

(** [{...target, ...src}]: the properties of [src] are assigned onto
    [target] one after the other. *)
Definition spread (target src : obj) : obj :=
  fold_left (fun acc kv => obj_set (fst kv) (snd kv) acc) src target.

(** ** Strings *)

Definition dquote : ascii := "034"%char.
Definition backslash : ascii := "092"%char.

Fixpoint string_of_chars (cs : list ascii) : string :=
  match cs with
  | [] => EmptyString
  | c :: cs' => String c (string_of_chars cs')
  end.

Fixpoint chars_of_string (s : string) : list ascii :=
  match s with
  | EmptyString => []
  | String c s' => c :: chars_of_string s'
  end.

Fixpoint starts_with (p s : string) : bool :=
  match p, s with
  | EmptyString, _ => true
  | String a p', String b s' => if Ascii.eqb a b then starts_with p' s' else false
  | String _ _, EmptyString => false
  end.

(** [hay.includes(needle)] *)
Fixpoint includes (needle hay : string) : bool :=
  starts_with needle hay ||
  match hay with
  | EmptyString => false
  | String _ hay' => includes needle hay'
  end.

Definition lower_char (c : ascii) : ascii :=
  let n := nat_of_ascii c in
  if (Nat.leb 65 n && Nat.leb n 90)%bool then ascii_of_nat (n + 32) else c.

Fixpoint lower (s : string) : string :=
  match s with
  | EmptyString => EmptyString
  | String c s' => String (lower_char c) (lower s')
  end.

Fixpoint join (sep : string) (l : list string) : string :=
  match l with
  | [] => EmptyString
  | [x] => x
  | x :: l' => x ++ sep ++ join sep l'
  end.

(** A text written as its parts between its double quotes. *)
Definition with_quotes (parts : list string) : string :=
  join (String dquote EmptyString) parts.

(** [headers.get(name)]: header names compare without case, the values
    of a repeated header are joined with a comma and a space, and an
    absent header gives [null] ([None]). *)
Definition Headers_get (name : string) (h : list (string * string)) : option string :=
  match filter (fun kv => String.eqb (lower (fst kv)) (lower name)) h with
  | [] => None
  | l => Some (join ", " (map snd l))
  end.

(** ** JSON.stringify *)

Definition hex_digit (n : nat) : ascii :=
  if Nat.ltb n 10 then ascii_of_nat (48 + n) else ascii_of_nat (87 + n).

(** One character of a string inside a JSON text. *)
Definition quote_char (c : ascii) : string :=
  let n := nat_of_ascii c in
  if Nat.eqb n 34 then String backslash (String dquote EmptyString)
  else if Nat.eqb n 92 then String backslash (String backslash EmptyString)
  else if Nat.eqb n 8 then String backslash "b"
  else if Nat.eqb n 9 then String backslash "t"
  else if Nat.eqb n 10 then String backslash "n"
  else if Nat.eqb n 12 then String backslash "f"
  else if Nat.eqb n 13 then String backslash "r"
  else if Nat.ltb n 32 then
    String backslash ("u00" ++ String (hex_digit (n / 16)) (String (hex_digit (n mod 16)) EmptyString))
  else String c EmptyString.

Fixpoint quote_body (s : string) : string :=
  match s with
  | EmptyString => EmptyString
  | String c s' => quote_char c ++ quote_body s'
  end.

Definition quote (s : string) : string :=
  String dquote (quote_body s ++ String dquote EmptyString).

(** [JSON.stringify(v)]; [None] is the result [undefined].  Inside an
    array [undefined] is written [null]; inside an object the property
    is left out.  A [Response], a promise and a host error have no own
    enumerable property; an [HttpError] has the four its constructor
    assigns.  A number is written digit by digit, which is what the
    host writes for an integer up to [2^53] in magnitude, and the keys
    of an object are written in the order of the list; the values on
    which this is the host's text are those of [host_exact], among the
    scenarios below.  The values have no [BigInt] and no cycle, on
    which the host throws. *)
Fixpoint JSON_stringify (v : val) : option string :=
  match v with
  | VUndefined => None
  | VNull => Some "null"
  | VBool true => Some "true"
  | VBool false => Some "false"
  | VNum n => Some (pretty n)
  | VStr s => Some (quote s)
  | VArr items =>
      Some ("[" ++ join "," (map (fun x => default "null" (JSON_stringify x)) items) ++ "]")
  | VObj fields =>
      Some ("{" ++ join ","
              (omap (fun kv => match JSON_stringify (snd kv) with
                               | Some s => Some (quote (fst kv) ++ ":" ++ s)
                               | None => None
                               end) fields) ++ "}")
  | VHttpError name _ st stt body =>
      Some ("{" ++ join ","
              ([quote "name" ++ ":" ++ quote name;
                quote "status" ++ ":" ++ pretty st;
                quote "statusText" ++ ":" ++ quote stt] ++
               match JSON_stringify body with
               | Some s => [quote "body" ++ ":" ++ s]
               | None => []
               end) ++ "}")
  | VResponse _ | VError _ _ | VPromise _ => Some "{}"
  end.

(** ** JSON.parse *)

(** A parser for the examples.  The library never parses: it calls
    [response.json()], and what that gives is part of the response
    ([bodyJson]).  The parser below serves to write a response by its
    body text alone ([mkResponse], at the end of this section).  It
    reads the JSON grammar over the values above: the literals,
    integers, strings with their escapes, arrays and objects.  A number
    with a fraction or an exponent and a [\u] escape above 7F have no
    counterpart among the values; such a text, though JSON for the
    host, is outside what [mkResponse] can write, and the parser gives
    [None] on it as it does on a text that is not JSON.  The theorems
    about all responses do not go through it. *)

Definition is_ws (c : ascii) : bool :=
  let n := nat_of_ascii c in
  (Nat.eqb n 32 || Nat.eqb n 9 || Nat.eqb n 10 || Nat.eqb n 13)%bool.

Fixpoint skip_ws (cs : list ascii) : list ascii :=
  match cs with
  | c :: cs' => if is_ws c then skip_ws cs' else cs
  | [] => []
  end.

Definition digit_of (c : ascii) : option Z :=
  let n := nat_of_ascii c in
  if (Nat.leb 48 n && Nat.leb n 57)%bool then Some (Z.of_nat (n - 48)) else None.

Definition hex_of (c : ascii) : option nat :=
  let n := nat_of_ascii c in
  if (Nat.leb 48 n && Nat.leb n 57)%bool then Some (n - 48)%nat
  else if (Nat.leb 97 n && Nat.leb n 102)%bool then Some (n - 87)%nat
  else if (Nat.leb 65 n && Nat.leb n 70)%bool then Some (n - 55)%nat
  else None.

Fixpoint parse_digits (acc : Z) (cs : list ascii) : Z * list ascii :=
  match cs with
  | c :: cs' =>
      match digit_of c with
      | Some d => parse_digits (acc * 10 + d) cs'
      | None => (acc, cs)
      end
  | [] => (acc, [])
  end.

(** An integer without sign: a lone [0], or digits that do not start
    with [0]; nothing of a fraction or an exponent may follow. *)
Definition parse_nat_lit (cs : list ascii) : option (Z * list ascii) :=
  match cs with
  | c :: cs' =>
      match digit_of c with
      | Some d =>
          let '(n, rest) := if Z.eqb d 0 then (0, cs') else parse_digits d cs' in
          match rest with
          | c' :: _ =>
              let k := nat_of_ascii c' in
              if (Nat.eqb k 46 || Nat.eqb k 101 || Nat.eqb k 69)%bool then None
              else match digit_of c' with
                   | Some _ => None
                   | None => Some (n, rest)
                   end
          | [] => Some (n, rest)
          end
      | None => None
      end
  | [] => None
  end.

(** The characters of a string up to its closing quote. *)
Fixpoint parse_string_body (cs : list ascii) (acc : list ascii) : option (string * list ascii) :=
  match cs with
  | [] => None
  | c :: cs' =>
      let n := nat_of_ascii c in
      if Nat.eqb n 34 then Some (string_of_chars (rev acc), cs')
      else if Nat.ltb n 32 then None
      else if Nat.eqb n 92 then
        match cs' with
        | e :: cs'' =>
            let k := nat_of_ascii e in
            if Nat.eqb k 34 then parse_string_body cs'' (dquote :: acc)
            else if Nat.eqb k 92 then parse_string_body cs'' (backslash :: acc)
            else if Nat.eqb k 47 then parse_string_body cs'' (e :: acc)
            else if Nat.eqb k 98 then parse_string_body cs'' (ascii_of_nat 8 :: acc)
            else if Nat.eqb k 102 then parse_string_body cs'' (ascii_of_nat 12 :: acc)
            else if Nat.eqb k 110 then parse_string_body cs'' (ascii_of_nat 10 :: acc)
            else if Nat.eqb k 114 then parse_string_body cs'' (ascii_of_nat 13 :: acc)
            else if Nat.eqb k 116 then parse_string_body cs'' (ascii_of_nat 9 :: acc)
            else if Nat.eqb k 117 then
              match cs'' with
              | h1 :: h2 :: h3 :: h4 :: cs3 =>
                  match hex_of h1, hex_of h2, hex_of h3, hex_of h4 with
                  | Some a, Some b, Some c3, Some d =>
                      let code := (((a * 16 + b) * 16 + c3) * 16 + d)%nat in
                      if Nat.ltb code 128
                      then parse_string_body cs3 (ascii_of_nat code :: acc)
                      else None
                  | _, _, _, _ => None
                  end
              | _ => None
              end
            else None
        | [] => None
        end
      else parse_string_body cs' (c :: acc)
  end.

Definition expect (word : string) (v : val) (cs : list ascii) : option (val * list ascii) :=
  if starts_with word (string_of_chars cs)
  then Some (v, skipn (String.length word) cs)
  else None.

(** One JSON value, with the white space before it.  [fuel] bounds the
    nesting and the number of members; the length of the text is
    enough. *)
Fixpoint parse_value (fuel : nat) (cs : list ascii) : option (val * list ascii) :=
  match fuel with
  | O => None
  | S fuel' =>
      match skip_ws cs with
      | [] => None
      | c :: rest =>
          let n := nat_of_ascii c in
          if Nat.eqb n 110 then expect "null" VNull (c :: rest)
          else if Nat.eqb n 116 then expect "true" (VBool true) (c :: rest)
          else if Nat.eqb n 102 then expect "false" (VBool false) (c :: rest)
          else if Nat.eqb n 34 then
            match parse_string_body rest [] with
            | Some (s, r) => Some (VStr s, r)
            | None => None
            end
          else if Nat.eqb n 45 then
            match parse_nat_lit rest with
            | Some (k, r) => Some (VNum (- k), r)
            | None => None
            end
          else if Nat.eqb n 91 then
            match skip_ws rest with
            | c' :: r' =>
                if Nat.eqb (nat_of_ascii c') 93 then Some (VArr [], r')
                else
                  (fix elements (k : nat) (acc : list val) (cs : list ascii) :=
                     match k with
                     | O => None
                     | S k' =>
                         match parse_value fuel' cs with
                         | Some (v, r) =>
                             match skip_ws r with
                             | d :: r2 =>
                                 if Nat.eqb (nat_of_ascii d) 44 then elements k' (v :: acc) r2
                                 else if Nat.eqb (nat_of_ascii d) 93
                                      then Some (VArr (rev (v :: acc)), r2)
                                      else None
                             | [] => None
                             end
                         | None => None
                         end
                     end) fuel' [] rest
            | [] => None
            end
          else if Nat.eqb n 123 then
            match skip_ws rest with
            | c' :: r' =>
                if Nat.eqb (nat_of_ascii c') 125 then Some (VObj [], r')
                else
                  (fix members (k : nat) (acc : obj) (cs : list ascii) :=
                     match k with
                     | O => None
                     | S k' =>
                         match skip_ws cs with
                         | q :: r0 =>
                             if Nat.eqb (nat_of_ascii q) 34 then
                               match parse_string_body r0 [] with
                               | Some (key, r1) =>
                                   match skip_ws r1 with
                                   | colon :: r2 =>
                                       if Nat.eqb (nat_of_ascii colon) 58 then
                                         match parse_value fuel' r2 with
                                         | Some (v, r3) =>
                                             match skip_ws r3 with
                                             | d :: r4 =>
                                                 if Nat.eqb (nat_of_ascii d) 44
                                                 then members k' (obj_set key v acc) r4
                                                 else if Nat.eqb (nat_of_ascii d) 125
                                                      then Some (VObj (obj_set key v acc), r4)
                                                      else None
                                             | [] => None
                                             end
                                         | None => None
                                         end
                                       else None
                                   | [] => None
                                   end
                               | None => None
                               end
                             else None
                         | [] => None
                         end
                     end) fuel' [] rest
            | [] => None
            end
          else
            match parse_nat_lit (c :: rest) with
            | Some (k, r) => Some (VNum k, r)
            | None => None
            end
      end
  end.

(** [JSON.parse(text)] *)
Definition JSON_parse (text : string) : option val :=
  let cs := chars_of_string text in
  match parse_value (S (length cs)) cs with
  | Some (v, rest) =>
      match skip_ws rest with
      | [] => Some v
      | _ :: _ => None
      end
  | None => None
  end.

(** A response written by its body text, for a text of integers,
    strings, literals, arrays and objects, or a text that is not JSON:
    [json()] gives what the parser reads in it. *)
Definition mkResponse (ok : bool) (status : Z) (statusText : string)
    (headers : list (string * string)) (text : string) : response :=
  new_Response ok status statusText headers text (JSON_parse text).

(** ** The host: promises, microtasks, stores *)

Local Open Scope list_scope.
Local Open Scope nat_scope.

(** How a call completes, and how a promise settles: normally with a
    value, or abruptly with a thrown value. *)
Inductive completion :=
| Return (v : val)
| Throw (r : val).

Definition completion_value (c : completion) : val :=
  match c with Return v => v | Throw r => r end.

(** The functions that get registered on promises.  [CUser l g] is a
    function of the caller: [g] gives its completion for each argument
    (a value, possibly a promise of the heap, or a throw), and [l]
    names it in the log, where each of its calls is recorded; what else
    the function does is not modelled.  [CCompose lb b la a] is the
    caller's arrow [x => b(a(x))].  The others are the closures the
    library and the host create: the resolving functions of a promise,
    the [(value) => { set(value) }] of [subscribe], the async arrow of
    [fetchErrorHandled$] and its continuation after the [await], the
    [(response) => response.json()] of [fetchJson$], and the four
    closures of [Promise.prototype.finally]. *)
Inductive callback :=
| CUser (l : nat) (g : val -> completion)
| CCompose (lb : nat) (b : val -> completion) (la : nat) (a : val -> completion)
| CResolve (q : pid)
| CReject (q : pid)
| CSet (st : nat)
| CClassify
| CClassifyResume (p : pid) (st : Z) (stt : string)
| CJson
| CThenFinally (onFinally : callback)
| CCatchFinally (onFinally : callback)
| CValueThunk (v : val)
| CThrower (r : val).

(** A promise reaction: the two handlers given to [then] and the
    promise derived from it ([None] for the reaction of an [await]). *)
Record reaction := mkReaction {
  on_fulfilled : option callback;
  on_rejected : option callback;
  target : option pid
}.

Inductive pstate :=
| Pending (reactions : list reaction)
| Fulfilled (v : val)
| Rejected (r : val).

(** A microtask: a reaction of a settled promise, or the adoption of a
    promise [thenable] by the promise [q] that was resolved with it. *)
Inductive job :=
| JReaction (rc : reaction) (settled : completion)
| JThenable (q : pid) (thenable : pid).

(** What the caller can observe: a call of one of its functions, a call
    of the [run] or of the [invalidate] function of subscriber [sub]. *)
Inductive event :=
| ECall (l : nat) (arg : val)
| ERun (sub : nat) (v : val)
| EInvalidate (sub : nat).

(** A Svelte store made by [readable]: its value, its subscribers, and
    whether [stop] is set (the store is started). *)
Record store := mkStore {
  s_value : val;
  s_subscribers : list nat;
  s_stop : bool
}.

(** A call of [fetch]: its two arguments. *)
Record request := mkRequest {
  r_input : val;
  r_init : option obj
}.

Record State := mkState {
  heap : list pstate;
  queue : list job;
  stores : list store;
  requests : list request;
  log : list event
}.

Definition set_heap (f : list pstate -> list pstate) (s : State) : State :=
  mkState (f (heap s)) (queue s) (stores s) (requests s) (log s).
Definition enqueue (js : list job) (s : State) : State :=
  mkState (heap s) (queue s ++ js) (stores s) (requests s) (log s).
Definition set_stores (f : list store -> list store) (s : State) : State :=
  mkState (heap s) (queue s) (f (stores s)) (requests s) (log s).
Definition record_request (r : request) (s : State) : State :=
  mkState (heap s) (queue s) (stores s) (requests s ++ [r]) (log s).
Definition emit (es : list event) (s : State) : State :=
  mkState (heap s) (queue s) (stores s) (requests s) (log s ++ es).

(** A new promise in state [ps]. *)
Definition alloc (ps : pstate) (s : State) : pid * State :=
  (length (heap s), set_heap (fun h => h ++ [ps]) s).

(** PerformPromiseThen: a pending promise keeps the reaction, a settled
    one schedules it at once. *)
Definition perform_then (p : pid) (rc : reaction) (s : State) : State :=
  match heap s !! p with
  | Some (Pending rs) => set_heap <[p := Pending (rs ++ [rc])]> s
  | Some (Fulfilled v) => enqueue [JReaction rc (Return v)] s
  | Some (Rejected r) => enqueue [JReaction rc (Throw r)] s
  | None => s
  end.

(** [p.then(onFulfilled, onRejected)] *)
Definition promise_then (p : pid) (onF onR : option callback) (s : State) : pid * State :=
  let '(q, s1) := alloc (Pending []) s in
  (q, perform_then p (mkReaction onF onR (Some q)) s1).

(** The state of a promise that has settled with [c]. *)
Definition settled (c : completion) : pstate :=
  match c with Return v => Fulfilled v | Throw r => Rejected r end.

(** FulfillPromise and RejectPromise: the promise settles and its
    reactions are scheduled in the order of registration.  A promise
    that is already settled stays as it is.  The host settles the
    promise of an operation with these, once. *)
Definition settle (q : pid) (c : completion) (s : State) : State :=
  match heap s !! q with
  | Some (Pending rs) =>
      enqueue (map (fun rc => JReaction rc c) rs) (set_heap <[q := settled c]> s)
  | _ => s
  end.

Definition fulfill (q : pid) (v : val) : State -> State := settle q (Return v).
Definition reject (q : pid) (r : val) : State -> State := settle q (Throw r).

Definition self_resolution : val := VError "TypeError" "Chaining cycle detected for promise".

(** The resolve function of [q]: a promise given as the value is
    adopted in a later microtask, any other value fulfills [q].  Each
    promise made here has one pair of resolving functions, which the
    host calls once, so the already-resolved flag of the pair is left
    out. *)
Definition resolve (q : pid) (x : val) (s : State) : State :=
  match x with
  | VPromise t =>
      if Nat.eqb t q then reject q self_resolution s
      else enqueue [JThenable q t] s
  | _ => fulfill q x s
  end.

(** PromiseResolve: a promise is returned as it is, another value is
    wrapped in a fulfilled promise. *)
Definition promise_resolve (x : val) (s : State) : pid * State :=
  match x with
  | VPromise t => (t, s)
  | _ => alloc (Fulfilled x) s
  end.

(** [safe_not_equal(a, b)] of Svelte:
    [a != a ? b == b : a !== b || (a && typeof a === 'object') || typeof a === 'function'].
    The values here have no NaN and no function; an object always
    counts as changed. *)
Definition is_object (a : val) : bool :=
  match a with
  | VUndefined | VNull | VBool _ | VNum _ | VStr _ => false
  | _ => true
  end.

Definition strict_equal_prim (a b : val) : bool :=
  match a, b with
  | VUndefined, VUndefined => true
  | VNull, VNull => true
  | VBool x, VBool y => Bool.eqb x y
  | VNum x, VNum y => Z.eqb x y
  | VStr x, VStr y => String.eqb x y
  | _, _ => false
  end.

Definition safe_not_equal (a b : val) : bool :=
  negb (strict_equal_prim a b) || is_object a.

(** [set(new_value)] of a Svelte store: an unchanged value is dropped;
    a changed one is stored and, if the store is started, every
    subscriber is invalidated and then run with it. *)
Definition store_set (st : nat) (v : val) (s : State) : State :=
  match stores s !! st with
  | Some sto =>
      if safe_not_equal (s_value sto) v then
        let s1 := set_stores <[st := mkStore v (s_subscribers sto) (s_stop sto)]> s in
        if s_stop sto
        then emit (map EInvalidate (s_subscribers sto) ++
                   map (fun sub => ERun sub v) (s_subscribers sto)) s1
        else s1
      else s
  | None => s
  end.

(** [response.text()] and [response.json()].  The body is taken as
    received: the promise is made settled, with the text, with the
    value [json()] gives, or with the [SyntaxError] of the host's
    parser. *)
Definition response_text (r : response) (s : State) : pid * State :=
  alloc (Fulfilled (VStr (bodyText r))) s.

Definition syntax_error : val := VError "SyntaxError" "Unexpected token in JSON".

Definition response_json (r : response) (s : State) : pid * State :=
  alloc (match bodyJson r with
         | Some v => Fulfilled v
         | None => Rejected syntax_error
         end) s.

Definition not_a_response : val := VError "TypeError" "Cannot read properties".

(** [new HttpError(status, statusText, body)]: [super(statusText)] sets
    the message, the name is that of the class. *)
Definition HttpError (st : Z) (stt : string) (body : val) : val :=
  VHttpError "HttpError" stt st stt body.

(** Calling a registered function with one argument. *)
Fixpoint call (cb : callback) (arg : val) (s : State) : completion * State :=
  match cb with
  | CUser l g => (g arg, emit [ECall l arg] s)
  | CCompose lb b la a =>
      match a arg with
      | Return y => (b y, emit [ECall la arg; ECall lb y] s)
      | Throw r => (Throw r, emit [ECall la arg] s)
      end
  | CResolve q => (Return VUndefined, resolve q arg s)
  | CReject q => (Return VUndefined, reject q arg s)
  | CSet st => (Return VUndefined, store_set st arg s)
  | CClassify =>
      (* async (response) => { ... } : the call makes the promise of
         the async function and runs the body up to its await *)
      let '(p, s1) := alloc (Pending []) s in
      match arg with
      | VResponse r =>
          if ok r then (Return (VPromise p), resolve p (VResponse r) s1)
          else
            let '(body, s2) :=
              match Headers_get "content-type" (headers r) with
              | Some ct =>
                  if includes "application/json" ct
                  then response_json r s1 else response_text r s1
              | None => response_text r s1
              end in
            (Return (VPromise p),
             perform_then body
               (mkReaction (Some (CClassifyResume p (status r) (statusText r)))
                           (Some (CReject p)) None) s2)
      | _ => (Return (VPromise p), reject p not_a_response s1)
      end
  | CClassifyResume p st stt =>
      (* after the await: throw new HttpError(status, statusText, body) *)
      (Return VUndefined, reject p (HttpError st stt arg) s)
  | CJson =>
      match arg with
      | VResponse r => let '(p, s1) := response_json r s in (Return (VPromise p), s1)
      | _ => (Throw not_a_response, s)
      end
  | CThenFinally f =>
      match call f VUndefined s with
      | (Return x, s1) =>
          let '(t, s2) := promise_resolve x s1 in
          let '(d, s3) := promise_then t (Some (CValueThunk arg)) None s2 in
          (Return (VPromise d), s3)
      | (Throw r, s1) => (Throw r, s1)
      end
  | CCatchFinally f =>
      match call f VUndefined s with
      | (Return x, s1) =>
          let '(t, s2) := promise_resolve x s1 in
          let '(d, s3) := promise_then t (Some (CThrower arg)) None s2 in
          (Return (VPromise d), s3)
      | (Throw r, s1) => (Throw r, s1)
      end
  | CValueThunk v => (Return v, s)
  | CThrower r => (Throw r, s)
  end.

(** [p.finally(onFinally)] *)
Definition promise_finally (p : pid) (onFinally : option callback) (s : State) : pid * State :=
  match onFinally with
  | Some f => promise_then p (Some (CThenFinally f)) (Some (CCatchFinally f)) s
  | None => promise_then p None None s
  end.

(** Running one microtask.  A reaction without a handler passes the
    settlement on; the completion of the handler resolves or rejects
    the derived promise. *)
Definition run_job (j : job) (s : State) : State :=
  match j with
  | JReaction rc c =>
      let handler := match c with
                     | Return _ => on_fulfilled rc
                     | Throw _ => on_rejected rc
                     end in
      let '(res, s1) := match handler with
                        | Some cb => call cb (completion_value c) s
                        | None => (c, s)
                        end in
      match target rc with
      | Some q =>
          match res with
          | Return v => resolve q v s1
          | Throw r => reject q r s1
          end
      | None => s1
      end
  | JThenable q t =>
      snd (promise_then t (Some (CResolve q)) (Some (CReject q)) s)
  end.

(** One turn of the microtask queue. *)
Definition tick (s : State) : State :=
  match queue s with
  | [] => s
  | j :: js => run_job j (mkState (heap s) js (stores s) (requests s) (log s))
  end.

(** Up to [n] microtasks, in order; the queue may empty earlier. *)
Fixpoint drain (n : nat) (s : State) : State :=
  match n with
  | O => s
  | S n' => drain n' (tick s)
  end.

(** [fetch(input, init)]: the request is issued and a pending promise
    stands for its response.  The host settles it later, with [fulfill]
    or [reject]. *)
Definition fetch (input : val) (init : option obj) (s : State) : pid * State :=
  let '(p, s1) := alloc (Pending []) s in
  (p, record_request (mkRequest input init) s1).

(** ** The Svelte store *)

(** [readable(value, start).subscribe(run, invalidate)] on a store that
    was just made: the subscriber is added, the store is started (the
    [start] function gets the store's [set]; it returns nothing here, so
    [stop] is [noop]), and [run] is called with the current value.  The
    result is the store, which the unsubscriber closes over. *)
Definition readable_subscribe (value : val) (start : nat -> State -> State)
    (sub : nat) (s : State) : nat * State :=
  let st := length (stores s) in
  let s1 := set_stores (fun l => l ++ [mkStore value [sub] false]) s in
  let s2 := start st s1 in
  let s3 := set_stores (fun l => match l !! st with
                                 | Some sto => <[st := mkStore (s_value sto) (s_subscribers sto) true]> l
                                 | None => l
                                 end) s2 in
  match stores s3 !! st with
  | Some sto => (st, emit [ERun sub (s_value sto)] s3)
  | None => (st, s3)
  end.

(** The unsubscriber: the subscriber is removed; when none is left the
    store is stopped. *)
Definition unsubscribe (st : nat) (sub : nat) (s : State) : State :=
  set_stores (fun l => match l !! st with
                       | Some sto =>
                           let subs := filter (fun x => negb (Nat.eqb x sub)) (s_subscribers sto) in
                           <[st := mkStore (s_value sto) subs
                                     (match subs with [] => false | _ => s_stop sto end)]> l
                       | None => l
                       end) s.

(** ** The library: [promisable] *)

(** The object [promisable(initialValue, promise)] returns closes over
    its two arguments.  A name that ends in [$] in the source ends in
    ['] here. *)
Record Promisable := promisable {
  _initialValue : val;
  _promise : pid
}.

(** [promisable(_initialValue, _promise.then(onfulfilled))] *)
Definition then' (f : Promisable) (onfulfilled : option callback) (s : State)
    : Promisable * State :=
  let '(q, s1) := promise_then (_promise f) onfulfilled None s in
  (promisable (_initialValue f) q, s1).

(** [promisable(_initialValue, _promise.catch(onrejected))] *)
Definition catch' (f : Promisable) (onrejected : option callback) (s : State)
    : Promisable * State :=
  let '(q, s1) := promise_then (_promise f) None onrejected s in
  (promisable (_initialValue f) q, s1).

(** [promisable(_initialValue, _promise.finally(onfinally))] *)
Definition finally' (f : Promisable) (onfinally : option callback) (s : State)
    : Promisable * State :=
  let '(q, s1) := promise_finally (_promise f) onfinally s in
  (promisable (_initialValue f) q, s1).

(** [promisable(initialValue, _promise)] *)
Definition startWith' (f : Promisable) (initialValue : val) : Promisable :=
  promisable initialValue (_promise f).

(** [subscribe(run, invalidate)]: a store is made for this subscriber;
    its start function registers [(value) => { set(value) }] on the
    promise, for fulfilment only. *)
Definition subscribe (f : Promisable) (sub : nat) (s : State) : nat * State :=
  readable_subscribe (_initialValue f)
    (fun st s' => snd (promise_then (_promise f) (Some (CSet st)) None s'))
    sub s.

(** ** The library: verbs *)

(** A parameter with a default: an argument that is left out is
    [undefined], and [undefined] takes the default. *)
Definition default_arg (d : val) (x : val) : val :=
  match x with VUndefined => d | _ => x end.

(** [init: RequestInit = {}] *)
Definition default_init (init : option obj) : obj :=
  match init with Some o => o | None => [] end.

(** The value of the property [body: JSON.stringify(body)]. *)
Definition stringified (body : val) : val :=
  match JSON_stringify body with
  | Some text => VStr text
  | None => VUndefined
  end.

(** [{ ...init, method: m }] *)
Definition with_method (m : string) (init : obj) : obj :=
  obj_set "method" (VStr m) (spread [] init).

(** [{ ...init, method: m, body: JSON.stringify(body) }] *)
Definition with_method_body (m : string) (body : val) (init : obj) : obj :=
  obj_set "body" (stringified body) (obj_set "method" (VStr m) (spread [] init)).

Definition fetch' (input : val) (init : option obj) (s : State) : Promisable * State :=
  let '(p, s1) := fetch input init s in
  (promisable VUndefined p, s1).

Definition fetchErrorHandled' (input : val) (init : option obj) (s : State)
    : Promisable * State :=
  let '(f, s1) := fetch' input init s in
  then' f (Some CClassify) s1.

Definition fetchJson' (input : val) (init : option obj) (s : State)
    : Promisable * State :=
  let '(f, s1) := fetchErrorHandled' input init s in
  then' f (Some CJson) s1.

Definition get' (endpoint : val) (init : option obj) :=
  fetchErrorHandled' endpoint (Some (with_method "GET" (default_init init))).
Definition getJson' (endpoint : val) (init : option obj) :=
  fetchJson' endpoint (Some (with_method "GET" (default_init init))).

Definition post' (endpoint : val) (body : val) (init : option obj) :=
  fetchErrorHandled' endpoint
    (Some (with_method_body "POST" (default_arg VNull body) (default_init init))).
Definition postJson' (endpoint : val) (body : val) (init : option obj) :=
  fetchJson' endpoint
    (Some (with_method_body "POST" (default_arg VNull body) (default_init init))).

Definition put' (endpoint : val) (body : val) (init : option obj) :=
  fetchErrorHandled' endpoint
    (Some (with_method_body "PUT" (default_arg VNull body) (default_init init))).
Definition putJson' (endpoint : val) (body : val) (init : option obj) :=
  fetchJson' endpoint
    (Some (with_method_body "PUT" (default_arg VNull body) (default_init init))).

Definition patch' (endpoint : val) (body : val) (init : option obj) :=
  fetchErrorHandled' endpoint
    (Some (with_method_body "PATCH" (default_arg VNull body) (default_init init))).
Definition patchJson' (endpoint : val) (body : val) (init : option obj) :=
  fetchJson' endpoint
    (Some (with_method_body "PATCH" (default_arg VNull body) (default_init init))).

Definition delete' (endpoint : val) (init : option obj) :=
  fetchErrorHandled' endpoint (Some (with_method "DELETE" (default_init init))).
Definition deleteJson' (endpoint : val) (init : option obj) :=
  fetchJson' endpoint (Some (with_method "DELETE" (default_init init))).

(** ** The library: [SvelteHttpClient] *)

(** What a method gives back: a result, or the exception it throws
    before any request is issued. *)
Inductive outcome (A : Type) :=
| Done (a : A)
| Raised (e : val).
Arguments Done {A} a.
Arguments Raised {A} e.

Record SvelteHttpClient := new_SvelteHttpClient {
  _baseUrl : val;
  _init : obj
}.

Module Client.
Section Client.

(** [new URL(url, base)] is the host's: the resolved URL, or the
    [TypeError] it throws for a URL that is not valid. *)
Variable new_URL : val -> val -> completion.

(** [{ ...this._init, ...init }] *)
Definition merged (c : SvelteHttpClient) (init : option obj) : obj :=
  spread (spread [] (_init c)) (default_init init).

Definition bound {A} (c : SvelteHttpClient) (endpoint : val)
    (k : val -> State -> A * State) (s : State) : outcome A * State :=
  match new_URL endpoint (_baseUrl c) with
  | Return url => let '(a, s1) := k url s in (Done a, s1)
  | Throw e => (Raised e, s)
  end.

(** The [Request] class is the host's as well: [is_Request input] is
    [input instanceof Request], [Request_url input] is [input.url],
    [new_Request url init] is [new Request(url, init)], which throws
    for a URL that is not valid, and [js_plus a b] is [a + b]. *)
Variable is_Request : val -> bool.
Variable Request_url : val -> val.
Variable new_Request : val -> val -> completion.
Variable js_plus : val -> val -> val.

(** [fetch$] of a client: a [Request] is rebuilt on the concatenation
    of the base address and its URL, any other input goes through
    [new URL]. *)
Definition fetch' (c : SvelteHttpClient) (input : val) (init : option obj) (s : State)
    : outcome Promisable * State :=
  let _input :=
    if is_Request input
    then new_Request (js_plus (_baseUrl c) (Request_url input)) input
    else new_URL input (_baseUrl c) in
  match _input with
  | Return x => let '(f, s1) := fetch' x (Some (merged c init)) s in (Done f, s1)
  | Throw e => (Raised e, s)
  end.

Definition get' (c : SvelteHttpClient) (endpoint : val) (init : option obj) :=
  bound c endpoint (fun url => get' url (Some (merged c init))).
Definition getJson' (c : SvelteHttpClient) (endpoint : val) (init : option obj) :=
  bound c endpoint (fun url => getJson' url (Some (merged c init))).

Definition post' (c : SvelteHttpClient) (endpoint body : val) (init : option obj) :=
  bound c endpoint
    (fun url => post' url (default_arg VNull body) (Some (merged c init))).
Definition postJson' (c : SvelteHttpClient) (endpoint body : val) (init : option obj) :=
  bound c endpoint
    (fun url => postJson' url (default_arg VNull body) (Some (merged c init))).

Definition put' (c : SvelteHttpClient) (endpoint body : val) (init : option obj) :=
  bound c endpoint
    (fun url => put' url (default_arg VNull body) (Some (merged c init))).
Definition putJson' (c : SvelteHttpClient) (endpoint body : val) (init : option obj) :=
  bound c endpoint
    (fun url => putJson' url (default_arg VNull body) (Some (merged c init))).

Definition patch' (c : SvelteHttpClient) (endpoint body : val) (init : option obj) :=
  bound c endpoint
    (fun url => patch' url (default_arg VNull body) (Some (merged c init))).
Definition patchJson' (c : SvelteHttpClient) (endpoint body : val) (init : option obj) :=
  bound c endpoint
    (fun url => patchJson' url (default_arg VNull body) (Some (merged c init))).

Definition delete' (c : SvelteHttpClient) (endpoint : val) (init : option obj) :=
  bound c endpoint (fun url => delete' url (Some (merged c init))).
Definition deleteJson' (c : SvelteHttpClient) (endpoint : val) (init : option obj) :=
  bound c endpoint (fun url => deleteJson' url (Some (merged c init))).

End Client.
End Client.

(** ** Scenarios *)

(** The properties of a future [promisable i p] are stated for a
    promise [p] that stands for a started operation, in a state [s] of
    the host where the caller's code runs: no microtask is waiting
    ([queue s = []]) and nothing is registered on [p] yet
    ([heap s !! p = Some (Pending [])]).  The rest of [s] (the other
    promises, the stores, the requests, the log) is arbitrary.

    The operation behind [p] settles with [c], and a piece of caller
    code [build] runs: either the operation has settled before
    ([late = false]) or it settles afterwards ([late = true]).  Then
    the host runs its microtasks, [drain]. *)
Definition settle_around {A} (late : bool) (p : pid) (c : completion)
    (build : State -> A * State) (s : State) : A * State :=
  if late then let '(a, s1) := build s in (a, settle p c s1)
  else build (settle p c s).

Definition is_promise (v : val) : bool :=
  match v with VPromise _ => true | _ => false end.

(** A fulfilment value is never a promise: a promise given to a
    resolve function is adopted, not stored. *)
Definition settlement_ok (c : completion) : Prop :=
  match c with
  | Return v => is_promise v = false
  | Throw _ => True
  end.

(** A function call that completes without handing back a promise: it
    returns a plain value, or throws. *)
Definition plain (c : completion) : bool :=
  match c with
  | Return v => negb (is_promise v)
  | Throw _ => true
  end.

(** [f.then$(a).then$(b)] *)
Definition then_then (f : Promisable) (a b : callback) (s : State)
    : Promisable * State :=
  let '(f1, s1) := then' f (Some a) s in
  then' f1 (Some b) s1.

(** What [f.then$(a).then$(b)] and [f.then$(x => b(a(x)))] hand on
    when neither adopts a promise. *)
Definition chain_result (a b : val -> completion) (c : completion) : completion :=
  match c with
  | Throw r => Throw r
  | Return v =>
      match a v with
      | Throw e => Throw e
      | Return y => b y
      end
  end.

(** No promise of the heap is fulfilled with a promise. *)
Definition heap_ok (s : State) : Prop :=
  forall t w, heap s !! t = Some (Fulfilled w) -> is_promise w = false.

(** How a promise has settled, if it has. *)
Definition settlement (ps : option pstate) : option completion :=
  match ps with
  | Some (Fulfilled v) => Some (Return v)
  | Some (Rejected r) => Some (Throw r)
  | _ => None
  end.

(** The call [r], made on the future [f] in state [s], derives a
    future: a promise made by this call, under the placeholder of [f].
    The call issues no request and calls no function, and the promise
    of [f] is settled after it as it was before. *)
Definition derives (f : Promisable) (s : State) (r : Promisable * State) : Prop :=
  _initialValue (fst r) = _initialValue f /\
  _promise (fst r) = length (heap s) /\
  requests (snd r) = requests s /\
  log (snd r) = log s /\
  settlement (heap (snd r) !! _promise f) = settlement (heap s !! _promise f).

(** The options of the request issued last. *)
Definition last_init (s : State) : option obj :=
  match last (requests s) with
  | Some r => r_init r
  | None => None
  end.

(** The header [name] among the [headers] option of the request issued
    last. *)
Definition issued_header (name : string) (s : State) : option val :=
  match last_init s with
  | Some o =>
      match obj_get "headers" o with
      | Some (VObj hs) => obj_get name hs
      | _ => None
      end
  | None => None
  end.

(** An object names each key once. *)
Definition wf_obj (o : obj) : Prop := NoDup (map fst o).

(** The call [r], made in state [s], issues one request, to [endpoint]:
    its options are an object whose method is [m] and, where [b] is
    given, whose body is [b]. *)
Definition sends (m : string) (b : option val) (endpoint : val) (s : State)
    (r : Promisable * State) : Prop :=
  exists o,
    requests (snd r) = requests s ++ [mkRequest endpoint (Some o)] /\
    wf_obj o /\
    obj_get "method" o = Some (VStr m) /\
    match b with
    | Some x => obj_get "body" o = Some x
    | None => True
    end.

(** A stand-in for [new URL] that accepts every endpoint as it is. *)
Definition URL_as_given (endpoint base : val) : completion := Return endpoint.

(** The world before anything happened. *)
Definition initial : State := mkState [] [] [] [] [].

(** Handlers for the examples: one that throws on [0] and hands back
    promise [1] otherwise, the successor of a number, and an
    asynchronous handler, which hands back promise [1]. *)
Definition picky (x : val) : completion :=
  match x with
  | VNum 0%Z => Throw (VStr "zero")
  | _ => Return (VPromise 1)
  end.

Definition successor (x : val) : completion :=
  match x with
  | VNum k => Return (VNum (k + 1))
  | _ => Throw (VError "TypeError" "not a number")
  end.

Definition hands_promise (x : val) : completion := Return (VPromise 1).

(** What the future of [fetchErrorHandled$] settles to once the
    response [r] has arrived, read off the async arrow: the response
    when it is ok; else the rejection of [response.json()] when that
    fails; else the [HttpError]. *)
Definition wants_json (r : response) : bool :=
  match Headers_get "content-type" (headers r) with
  | Some ct => includes "application/json" ct
  | None => false
  end.

Definition classified (r : response) : pstate :=
  if ok r then Fulfilled (VResponse r)
  else if wants_json r then
    match bodyJson r with
    | Some body => Rejected (HttpError (status r) (statusText r) body)
    | None => Rejected syntax_error
    end
  else Rejected (HttpError (status r) (statusText r) (VStr (bodyText r))).

(** ** Further scenarios *)

(** What [f.catch$(h)] settles to: a success passes through, a failure
    is handed to [h]. *)
Definition recovered (h : val -> completion) (c : completion) : completion :=
  match c with
  | Return v => Return v
  | Throw r => h r
  end.

(** [f.then$(g).catch$(h)] *)
Definition then_catch (f : Promisable) (g h : callback) (s : State)
    : Promisable * State :=
  let '(f1, s1) := then' f (Some g) s in
  catch' f1 (Some h) s1.

(** What [f.then$(g).catch$(h)] settles to, and which calls it makes,
    when neither function hands back a promise. *)
Definition recover_result (g h : val -> completion) (c : completion) : completion :=
  match c with
  | Throw r => h r
  | Return v =>
      match g v with
      | Return y => Return y
      | Throw e => h e
      end
  end.

Definition recover_calls (lg lh : nat) (g : val -> completion) (c : completion)
    : list event :=
  match c with
  | Throw r => [ECall lh r]
  | Return v =>
      ECall lg v :: match g v with
                    | Return _ => []
                    | Throw e => [ECall lh e]
                    end
  end.

(** The values [JSON.parse] can give: no promise, response or error is
    among them. *)
Definition is_json (v : val) : bool :=
  match v with
  | VNull | VBool _ | VNum _ | VStr _ | VArr _ | VObj _ => true
  | _ => false
  end.

(** [json()] of a response gives a JSON value: [null], a boolean, a
    number, a string, an array or an object. *)
Definition gives_json (r : response) : Prop :=
  match bodyJson r with
  | Some v => is_json v = true
  | None => True
  end.

(** What the future of [fetchJson$] settles to once the response [r]
    has arrived: the value [json()] gives for an ok response, the
    [SyntaxError] when [json()] rejects, and what [fetchErrorHandled$]
    rejects with otherwise. *)
Definition decoded (r : response) : pstate :=
  if ok r then
    match bodyJson r with
    | Some body => Fulfilled body
    | None => Rejected syntax_error
    end
  else classified r.

(** What reaches subscriber [sub] of a future with placeholder
    [undefined] after the placeholder, for a settlement that is not
    [undefined]: the invalidation and the value of a success, nothing
    of a failure. *)
Definition delivered (sub : nat) (ps : pstate) : list event :=
  match ps with
  | Fulfilled v => [EInvalidate sub; ERun sub v]
  | _ => []
  end.

(** From state [s] to state [s']: what has settled stays settled, with
    the same value or reason; no request is issued; the log only
    grows; no promise disappears. *)
Definition evolves (s s' : State) : Prop :=
  (forall p c, heap s !! p = Some (settled c) -> heap s' !! p = Some (settled c)) /\
  requests s' = requests s /\
  (exists es, log s' = log s ++ es) /\
  length (heap s) <= length (heap s').

(** What can happen to the futures at hand, apart from a verb call:
    the caller chains, subscribes and unsubscribes; the host settles a
    promise and runs microtasks. *)
Inductive action :=
| AThen (f : Promisable) (cb : option callback)
| ACatch (f : Promisable) (cb : option callback)
| AFinally (f : Promisable) (cb : option callback)
| ASubscribe (f : Promisable) (sub : nat)
| AUnsubscribe (st : nat) (sub : nat)
| ASettle (p : pid) (c : completion)
| ATurns (n : nat).

Definition perform (a : action) (s : State) : State :=
  match a with
  | AThen f cb => snd (then' f cb s)
  | ACatch f cb => snd (catch' f cb s)
  | AFinally f cb => snd (finally' f cb s)
  | ASubscribe f sub => snd (subscribe f sub s)
  | AUnsubscribe st sub => unsubscribe st sub s
  | ASettle p c => settle p c s
  | ATurns n => drain n s
  end.

Definition perform_all (acts : list action) (s : State) : State :=
  fold_left (fun s0 a => perform a s0) acts s.

(** The options of a request, key by key: the method is [m], every
    other key is as in [rest]. *)
Definition with_method_key (m : string) (rest : string -> option val) (k : string)
    : option val :=
  if String.eqb k "method" then Some (VStr m) else rest k.

(** [{ ...this._init, ...init }], key by key. *)
Definition merged_by_key (c : SvelteHttpClient) (init : option obj) (k : string)
    : option val :=
  match obj_get k (default_init init) with
  | Some v => Some v
  | None => obj_get k (_init c)
  end.

(** From [s] to [s'] one request is issued, to [input], with options
    that hold [opts k] under each key [k] that is not among [own]. *)
Definition passes_except (own : list string) (input : val)
    (opts : string -> option val) (s s' : State) : Prop :=
  exists o,
    requests s' = requests s ++ [mkRequest input (Some o)] /\
    forall k, k ∉ own -> obj_get k o = opts k.

(** The values on which [JSON_stringify] above writes what the host's
    [JSON.stringify] writes: every number is an integer that a double
    holds exactly and the host prints digit by digit (up to [2^53] in
    magnitude), and no object has a key twice or a key that starts
    with a digit, which could be an integer index that the host
    writes before the other keys. *)
Definition index_like (k : string) : bool :=
  match k with
  | String c _ => match digit_of c with Some _ => true | None => false end
  | EmptyString => false
  end.

Fixpoint host_exact (v : val) : bool :=
  match v with
  | VNum n => (Z.abs n <=? 2 ^ 53)%Z
  | VArr items => forallb host_exact items
  | VObj fields =>
      bool_decide (NoDup (map fst fields)) &&
      forallb (fun kv => negb (index_like (fst kv)) && host_exact (snd kv)) fields
  | VHttpError _ _ st _ body => (Z.abs st <=? 2 ^ 53)%Z && host_exact body
  | _ => true
  end.

(** A promise that the call of a [finally$] callback returns is one of
    the heap. *)
Definition known (s : State) (r : completion) : Prop :=
  match r with
  | Return (VPromise t) => t < length (heap s)
  | _ => True
  end.

(** What [f.finally$(cb)] settles to, for an operation [p] that
    settles with [c] and a callback whose call completes with [r] in a
    heap as in [s]: a throw replaces the outcome; a returned promise
    that is rejected replaces it with its reason; a returned promise
    that is pending keeps the derived future pending; anything else
    leaves the outcome of the operation.  The promise [p] itself has
    settled with [c] when the callback runs. *)
Definition after_finally (s : State) (p : pid) (c r : completion) : pstate :=
  match r with
  | Throw e => Rejected e
  | Return (VPromise t) =>
      if Nat.eqb t p then settled c
      else match heap s !! t with
           | Some (Rejected e) => Rejected e
           | Some (Fulfilled _) => settled c
           | _ => Pending []
           end
  | Return _ => settled c
  end.

(** Two futures derived from the same one: [f.then$(a)] and
    [f.then$(b)]. *)
Definition siblings (f : Promisable) (a b : callback) (s : State)
    : (Promisable * Promisable) * State :=
  let '(f1, s1) := then' f (Some a) s in
  let '(f2, s2) := then' f (Some b) s1 in
  ((f1, f2), s2).

(** What [f.then$(g)] settles to when [g] hands back no promise. *)
Definition mapped (g : val -> completion) (c : completion) : completion :=
  match c with
  | Return v => g v
  | Throw r => Throw r
  end.

(** * Properties *)

(** ** Objects and spread *)

Lemma obj_get_set_eq k v o : obj_get k (obj_set k v o) = Some v.
Proof.
  induction o as [|[k' v'] o IH]; simpl.
  - rewrite String.eqb_refl. reflexivity.
  - destruct (String.eqb k k') eqn:E; simpl; rewrite E; [reflexivity | exact IH].
Qed.

Lemma obj_get_set_ne k k' v o : k <> k' -> obj_get k (obj_set k' v o) = obj_get k o.
Proof.
  intros Hne. induction o as [|[k2 v2] o IH]; simpl.
  - destruct (String.eqb_spec k k'); [contradiction | reflexivity].
  - destruct (String.eqb_spec k' k2) as [->|Hk]; simpl.
    + destruct (String.eqb_spec k k2); [contradiction | reflexivity].
    + destruct (String.eqb k k2); [reflexivity | exact IH].
Qed.

Lemma obj_get_set k k' v o :
  obj_get k (obj_set k' v o) = if String.eqb k k' then Some v else obj_get k o.
Proof.
  destruct (String.eqb_spec k k') as [->|Hne].
  - apply obj_get_set_eq.
  - apply obj_get_set_ne, Hne.
Qed.

Lemma obj_get_None k (o : obj) : k ∉ map fst o -> obj_get k o = None.
Proof.
  induction o as [|[k' v'] o IH]; simpl; intros Hk; [reflexivity|].
  destruct (String.eqb_spec k k') as [->|Hne].
  - exfalso. apply Hk. left.
  - apply IH. intros Hin. apply Hk. right. exact Hin.
Qed.

(** Spread is shallow: key by key, the source wins and the target
    keeps what the source does not name. *)
Lemma obj_get_spread k (target src : obj) :
  wf_obj src ->
  obj_get k (spread target src) =
  match obj_get k src with
  | Some v => Some v
  | None => obj_get k target
  end.
Proof.
  unfold spread, wf_obj. revert target.
  induction src as [|[k' v'] src IH]; intros target Hnd; simpl; [reflexivity|].
  simpl in Hnd. apply NoDup_cons in Hnd as [Hk' Hnd].
  rewrite (IH _ Hnd).
  destruct (String.eqb_spec k k') as [->|Hne].
  - rewrite (obj_get_None _ _ Hk'). apply obj_get_set_eq.
  - rewrite obj_get_set_ne by exact Hne. reflexivity.
Qed.

Lemma keys_obj_set k v (o : obj) :
  map fst (obj_set k v o) = if bool_decide (k ∈ map fst o) then map fst o else map fst o ++ [k].
Proof.
  induction o as [|[k' v'] o IH]; simpl; [reflexivity|].
  destruct (String.eqb_spec k k') as [->|Hne]; simpl.
  - rewrite bool_decide_eq_true_2 by left. reflexivity.
  - rewrite IH. destruct (bool_decide (k ∈ map fst o)) eqn:E.
    + apply bool_decide_eq_true_1 in E.
      rewrite bool_decide_eq_true_2 by (right; exact E). reflexivity.
    + apply bool_decide_eq_false_1 in E.
      rewrite bool_decide_eq_false_2; [reflexivity|].
      intros Hin. apply elem_of_cons in Hin as [?|?]; [congruence | contradiction].
Qed.

Lemma wf_obj_set k v o : wf_obj o -> wf_obj (obj_set k v o).
Proof.
  unfold wf_obj. intros Hnd. rewrite keys_obj_set.
  destruct (bool_decide (k ∈ map fst o)) eqn:E; [exact Hnd|].
  apply bool_decide_eq_false_1 in E.
  apply NoDup_app. split; [exact Hnd|]. split.
  - intros x Hx Hx'. apply list_elem_of_singleton in Hx'. subst. contradiction.
  - apply NoDup_singleton.
Qed.

Lemma wf_spread target src : wf_obj target -> wf_obj (spread target src).
Proof.
  unfold spread. revert target.
  induction src as [|[k v] src IH]; intros target Hwf; simpl; [exact Hwf|].
  apply IH, wf_obj_set, Hwf.
Qed.

Lemma wf_empty : wf_obj [].
Proof. apply NoDup_nil_2. Qed.

Lemma wf_one_key k v : wf_obj [(k, v)].
Proof. apply NoDup_singleton. Qed.

Lemma wf_with_method m init : wf_obj (with_method m init).
Proof. apply wf_obj_set, wf_spread, wf_empty. Qed.

Lemma wf_with_method_body m body init : wf_obj (with_method_body m body init).
Proof. apply wf_obj_set, wf_obj_set, wf_spread, wf_empty. Qed.

(** ** Which request a verb issues *)

Lemma requests_perform_then p rc s : requests (perform_then p rc s) = requests s.
Proof. unfold perform_then. destruct (heap s !! p) as [[]|]; reflexivity. Qed.

Lemma requests_promise_then p onF onR s :
  requests (snd (promise_then p onF onR s)) = requests s.
Proof. unfold promise_then. simpl. rewrite requests_perform_then. reflexivity. Qed.

Lemma requests_then' f cb s : requests (snd (then' f cb s)) = requests s.
Proof.
  unfold then'. pose proof (requests_promise_then (_promise f) cb None s) as H.
  destruct (promise_then _ _ _ _). exact H.
Qed.

Lemma requests_catch' f cb s : requests (snd (catch' f cb s)) = requests s.
Proof.
  unfold catch'. pose proof (requests_promise_then (_promise f) None cb s) as H.
  destruct (promise_then _ _ _ _). exact H.
Qed.

Lemma requests_finally' f cb s : requests (snd (finally' f cb s)) = requests s.
Proof.
  unfold finally', promise_finally.
  destruct cb as [cb|];
    [ pose proof (requests_promise_then (_promise f) (Some (CThenFinally cb))
                    (Some (CCatchFinally cb)) s) as H
    | pose proof (requests_promise_then (_promise f) None None s) as H ];
    destruct (promise_then _ _ _ _); exact H.
Qed.

Lemma requests_fetch' input init s :
  requests (snd (fetch' input init s)) = requests s ++ [mkRequest input init].
Proof. reflexivity. Qed.

Lemma requests_fetchErrorHandled' input init s :
  requests (snd (fetchErrorHandled' input init s)) = requests s ++ [mkRequest input init].
Proof.
  unfold fetchErrorHandled'.
  pose proof (requests_fetch' input init s) as H.
  destruct (fetch' input init s) as [f s1]. simpl in H.
  rewrite requests_then'. exact H.
Qed.

Lemma requests_fetchJson' input init s :
  requests (snd (fetchJson' input init s)) = requests s ++ [mkRequest input init].
Proof.
  unfold fetchJson'.
  pose proof (requests_fetchErrorHandled' input init s) as H.
  destruct (fetchErrorHandled' input init s) as [f s1]. simpl in H.
  rewrite requests_then'. exact H.
Qed.

Lemma method_of_with_method m init :
  obj_get "method" (with_method m init) = Some (VStr m).
Proof. apply obj_get_set_eq. Qed.

Lemma method_of_with_method_body m body init :
  obj_get "method" (with_method_body m body init) = Some (VStr m).
Proof.
  unfold with_method_body. rewrite obj_get_set_ne by discriminate.
  apply obj_get_set_eq.
Qed.

Lemma body_of_with_method_body m body init :
  obj_get "body" (with_method_body m body init) = Some (stringified body).
Proof. apply obj_get_set_eq. Qed.

Lemma sends_bodiless (h : val -> option obj -> State -> Promisable * State) m endpoint init s :
  (forall i o s0, requests (snd (h i o s0)) = requests s0 ++ [mkRequest i o]) ->
  sends m None endpoint s (h endpoint (Some (with_method m (default_init init))) s).
Proof.
  intros Hh. eexists. split; [apply Hh|].
  split; [apply wf_with_method|].
  split; [apply method_of_with_method | exact I].
Qed.

Lemma sends_with_body (h : val -> option obj -> State -> Promisable * State)
    m endpoint body init s :
  (forall i o s0, requests (snd (h i o s0)) = requests s0 ++ [mkRequest i o]) ->
  sends m (Some (stringified (default_arg VNull body))) endpoint s
    (h endpoint (Some (with_method_body m (default_arg VNull body) (default_init init))) s).
Proof.
  intros Hh. eexists. split; [apply Hh|].
  split; [apply wf_with_method_body|].
  split; [apply method_of_with_method_body | apply body_of_with_method_body].
Qed.

Lemma default_arg_given (d x : val) : x <> VUndefined -> default_arg d x = x.
Proof. intros Hx. destruct x; try reflexivity. contradiction. Qed.

Lemma stringified_text (x : val) (text : string) :
  JSON_stringify x = Some text -> stringified x = VStr text.
Proof. intros H. unfold stringified. rewrite H. reflexivity. Qed.

(** C9.  Whatever options the caller passes, also options with a
    [method] or a [body] of their own, each of the ten verb functions
    issues its request with the verb's own method, and [post$],
    [put$], [patch$] and their Json variants issue it with the JSON
    text of the body argument as its body: the string [text] that
    [JSON.stringify] gives for the argument, for every argument that
    is given and on which the [JSON_stringify] of this file is the
    host's ([host_exact]).  An argument left out is C10's. *)
Theorem verb_method_and_body_win (endpoint body : val) (text : string)
    (init : option obj) (s : State) :
  body <> VUndefined ->
  host_exact body = true ->
  JSON_stringify body = Some text ->
  sends "GET" None endpoint s (get' endpoint init s) /\
  sends "GET" None endpoint s (getJson' endpoint init s) /\
  sends "DELETE" None endpoint s (delete' endpoint init s) /\
  sends "DELETE" None endpoint s (deleteJson' endpoint init s) /\
  sends "POST" (Some (VStr text)) endpoint s (post' endpoint body init s) /\
  sends "POST" (Some (VStr text)) endpoint s (postJson' endpoint body init s) /\
  sends "PUT" (Some (VStr text)) endpoint s (put' endpoint body init s) /\
  sends "PUT" (Some (VStr text)) endpoint s (putJson' endpoint body init s) /\
  sends "PATCH" (Some (VStr text)) endpoint s (patch' endpoint body init s) /\
  sends "PATCH" (Some (VStr text)) endpoint s (patchJson' endpoint body init s).
Proof.
  intros Hgiven _ Htext.
  pose proof (fun m => sends_bodiless fetchErrorHandled' m endpoint init s
                         requests_fetchErrorHandled') as Hraw.
  pose proof (fun m => sends_bodiless fetchJson' m endpoint init s
                         requests_fetchJson') as Hjson.
  pose proof (fun m => sends_with_body fetchErrorHandled' m endpoint body init s
                         requests_fetchErrorHandled') as Hraw_body.
  pose proof (fun m => sends_with_body fetchJson' m endpoint body init s
                         requests_fetchJson') as Hjson_body.
  rewrite (default_arg_given VNull body Hgiven) in Hraw_body, Hjson_body.
  rewrite (stringified_text body text Htext) in Hraw_body, Hjson_body.
  unfold post', postJson', put', putJson', patch', patchJson'.
  rewrite (default_arg_given VNull body Hgiven).
  refine (conj (Hraw "GET") (conj (Hjson "GET") (conj (Hraw "DELETE") (conj (Hjson "DELETE")
         (conj (Hraw_body "POST") (conj (Hjson_body "POST")
         (conj (Hraw_body "PUT") (conj (Hjson_body "PUT")
         (conj (Hraw_body "PATCH") (Hjson_body "PATCH")))))))))).
Qed.

Lemma verb_method_and_body_win_witness :
  let endpoint := VStr "/posts" in
  let body := VObj [("title", VStr "a"); ("userId", VNum 1)] in
  let text := with_quotes ["{"; "title"; ":"; "a"; ","; "userId"; ":1}"] in
  let init := Some [("method", VStr "GET"); ("body", VStr "mine")] in
  let s := initial in
  body <> VUndefined /\
  host_exact body = true /\
  JSON_stringify body = Some text /\
  sends "GET" None endpoint s (get' endpoint init s) /\
  sends "GET" None endpoint s (getJson' endpoint init s) /\
  sends "DELETE" None endpoint s (delete' endpoint init s) /\
  sends "DELETE" None endpoint s (deleteJson' endpoint init s) /\
  sends "POST" (Some (VStr text)) endpoint s (post' endpoint body init s) /\
  sends "POST" (Some (VStr text)) endpoint s (postJson' endpoint body init s) /\
  sends "PUT" (Some (VStr text)) endpoint s (put' endpoint body init s) /\
  sends "PUT" (Some (VStr text)) endpoint s (putJson' endpoint body init s) /\
  sends "PATCH" (Some (VStr text)) endpoint s (patch' endpoint body init s) /\
  sends "PATCH" (Some (VStr text)) endpoint s (patchJson' endpoint body init s).
Proof.
  split; [discriminate|]. split; [reflexivity|]. split; [reflexivity|].
  apply (verb_method_and_body_win (VStr "/posts")
           (VObj [("title", VStr "a"); ("userId", VNum 1)])
           (with_quotes ["{"; "title"; ":"; "a"; ","; "userId"; ":1}"])
           (Some [("method", VStr "GET"); ("body", VStr "mine")]) initial);
    [discriminate | reflexivity | reflexivity].
Defined.

(** C10.  With the body argument left out, [post$], [postJson$],
    [put$], [putJson$], [patch$] and [patchJson$] issue a request whose
    body is the four characters [null]: the parameter defaults to
    [null] and always goes through [JSON.stringify]. *)
Theorem omitted_body_is_null_text (endpoint : val) (init : option obj) (s : State) :
  sends "POST" (Some (VStr "null")) endpoint s (post' endpoint VUndefined init s) /\
  sends "POST" (Some (VStr "null")) endpoint s (postJson' endpoint VUndefined init s) /\
  sends "PUT" (Some (VStr "null")) endpoint s (put' endpoint VUndefined init s) /\
  sends "PUT" (Some (VStr "null")) endpoint s (putJson' endpoint VUndefined init s) /\
  sends "PATCH" (Some (VStr "null")) endpoint s (patch' endpoint VUndefined init s) /\
  sends "PATCH" (Some (VStr "null")) endpoint s (patchJson' endpoint VUndefined init s).
Proof.
  pose proof (fun m => sends_with_body fetchErrorHandled' m endpoint VUndefined init s
                         requests_fetchErrorHandled') as Hraw.
  pose proof (fun m => sends_with_body fetchJson' m endpoint VUndefined init s
                         requests_fetchJson') as Hjson.
  refine (conj (Hraw "POST") (conj (Hjson "POST") (conj (Hraw "PUT") (conj (Hjson "PUT")
         (conj (Hraw "PATCH") (Hjson "PATCH")))))).
Qed.

(** A caller who sets [method] and [body] in the options of [post$]
    sees neither in the request. *)
Example post_overrides_caller_options :
  last_init (snd (post' (VStr "/posts") (VObj [("title", VStr "a")])
                    (Some [("method", VStr "GET"); ("body", VStr "mine");
                           ("mode", VStr "cors")]) initial))
  = Some [("method", VStr "POST");
          ("body", VStr (with_quotes ["{"; "title"; ":"; "a"; "}"]));
          ("mode", VStr "cors")].
Proof. reflexivity. Qed.

(** ** The options a client method passes on *)

(** The options [get$] of a client hands to [fetch]: key by key, the
    method is GET, a key of the call wins, and a default the call does
    not name is kept. *)
Lemma obj_get_client_get c init k :
  wf_obj (_init c) -> wf_obj (default_init init) ->
  obj_get k (with_method "GET" (Client.merged c init)) =
  if String.eqb k "method" then Some (VStr "GET")
  else match obj_get k (default_init init) with
       | Some v => Some v
       | None => obj_get k (_init c)
       end.
Proof.
  intros Hc Hi. unfold with_method, Client.merged.
  rewrite obj_get_set. destruct (String.eqb k "method"); [reflexivity|].
  rewrite obj_get_spread by (apply wf_spread, wf_spread, wf_empty).
  rewrite obj_get_spread by exact Hi.
  rewrite obj_get_spread by exact Hc.
  simpl. destruct (obj_get k (default_init init)); [reflexivity|].
  destruct (obj_get k (_init c)); reflexivity.
Qed.

(** C1, as the code has it.  [get$] of a client issues one request, to
    the endpoint resolved against the base address, with the options
    [{...defaults, ...perCall, method: 'GET'}].  The merge is by key at
    the top level only: the value of the call wins, a default that the
    call does not name is kept, and [headers] is one such key, so the
    headers object of the call replaces the default one as a whole. *)
Theorem client_get_merges_by_key
    (new_URL : val -> val -> completion) (c : SvelteHttpClient)
    (endpoint url : val) (init : option obj) (s : State) :
  wf_obj (_init c) ->
  wf_obj (default_init init) ->
  new_URL endpoint (_baseUrl c) = Return url ->
  exists o,
    requests (snd (Client.get' new_URL c endpoint init s))
      = requests s ++ [mkRequest url (Some o)] /\
    forall k,
      obj_get k o =
      if String.eqb k "method" then Some (VStr "GET")
      else match obj_get k (default_init init) with
           | Some v => Some v
           | None => obj_get k (_init c)
           end.
Proof.
  intros Hc Hi Hurl.
  exists (with_method "GET" (Client.merged c init)). split.
  - unfold Client.get', Client.bound. rewrite Hurl.
    pose proof (requests_fetchErrorHandled' url
                  (Some (with_method "GET" (Client.merged c init))) s) as H.
    unfold get'.
    destruct (fetchErrorHandled' url _ s) as [f s1]. exact H.
  - intros k. apply obj_get_client_get; assumption.
Qed.

Lemma client_get_merges_by_key_witness :
  wf_obj [("headers", VObj [("x", VStr "1")])] /\
  wf_obj [("headers", VObj [("x", VStr "2")])] /\
  URL_as_given (VStr "posts") (VStr "https://api.example.com/") = Return (VStr "posts") /\
  exists o,
    requests (snd (Client.get' URL_as_given
                     (new_SvelteHttpClient (VStr "https://api.example.com/")
                        [("headers", VObj [("x", VStr "1")])])
                     (VStr "posts") (Some [("headers", VObj [("x", VStr "2")])]) initial))
      = requests initial ++ [mkRequest (VStr "posts") (Some o)] /\
    forall k,
      obj_get k o =
      if String.eqb k "method" then Some (VStr "GET")
      else match obj_get k [("headers", VObj [("x", VStr "2")])] with
           | Some v => Some v
           | None => obj_get k [("headers", VObj [("x", VStr "1")])]
           end.
Proof.
  split; [apply wf_one_key|]. split; [apply wf_one_key|]. split; [reflexivity|].
  apply (client_get_merges_by_key URL_as_given
           (new_SvelteHttpClient (VStr "https://api.example.com/")
              [("headers", VObj [("x", VStr "1")])])
           (VStr "posts") (VStr "posts")
           (Some [("headers", VObj [("x", VStr "2")])]) initial).
  - apply wf_one_key.
  - apply wf_one_key.
  - reflexivity.
Defined.

(** C1, as stated, fails: with the default options
    [{headers: {x: "1"}}] and the call options [{headers: {y: "2"}}]
    the request carries the header [y] alone; the default header [x]
    is not in it. *)
Lemma client_get_drops_default_header :
  let c := new_SvelteHttpClient (VStr "https://api.example.com/")
             [("headers", VObj [("x", VStr "1")])] in
  let s := snd (Client.get' URL_as_given c (VStr "posts")
                  (Some [("headers", VObj [("y", VStr "2")])]) initial) in
  last_init s = Some [("headers", VObj [("y", VStr "2")]); ("method", VStr "GET")] /\
  issued_header "y" s = Some (VStr "2") /\
  issued_header "x" s = None /\
  ~ (issued_header "x" s = Some (VStr "1") /\ issued_header "y" s = Some (VStr "2")).
Proof.
  repeat split; try reflexivity.
  intros [H _]. discriminate H.
Qed.

(** The other half of the scenario holds: a header the call names wins
    over the default of the same name. *)
Example client_get_call_header_wins :
  let c := new_SvelteHttpClient (VStr "https://api.example.com/")
             [("headers", VObj [("x", VStr "1")])] in
  let s := snd (Client.get' URL_as_given c (VStr "posts")
                  (Some [("headers", VObj [("x", VStr "2")])]) initial) in
  issued_header "x" s = Some (VStr "2").
Proof. reflexivity. Qed.

(** ** Running the host *)

Lemma perform_then_pending h q st rq lg p rs rc :
  h !! p = Some (Pending rs) ->
  perform_then p rc (mkState h q st rq lg)
  = mkState (<[p := Pending (rs ++ [rc])]> h) q st rq lg.
Proof. intros H. unfold perform_then. simpl. rewrite H. reflexivity. Qed.

Lemma perform_then_fulfilled h q st rq lg p v rc :
  h !! p = Some (Fulfilled v) ->
  perform_then p rc (mkState h q st rq lg)
  = mkState h (q ++ [JReaction rc (Return v)]) st rq lg.
Proof. intros H. unfold perform_then. simpl. rewrite H. reflexivity. Qed.

Lemma perform_then_rejected h q st rq lg p r rc :
  h !! p = Some (Rejected r) ->
  perform_then p rc (mkState h q st rq lg)
  = mkState h (q ++ [JReaction rc (Throw r)]) st rq lg.
Proof. intros H. unfold perform_then. simpl. rewrite H. reflexivity. Qed.

Lemma perform_then_settled h q st rq lg p c rc :
  h !! p = Some (settled c) ->
  perform_then p rc (mkState h q st rq lg)
  = mkState h (q ++ [JReaction rc c]) st rq lg.
Proof.
  destruct c; [apply perform_then_fulfilled | apply perform_then_rejected].
Qed.

Lemma settle_pending h q st rq lg p rs c :
  h !! p = Some (Pending rs) ->
  settle p c (mkState h q st rq lg)
  = mkState (<[p := settled c]> h) (q ++ map (fun rc => JReaction rc c) rs) st rq lg.
Proof. intros H. unfold settle. simpl. rewrite H. reflexivity. Qed.

Lemma settle_fulfilled h q st rq lg p v c :
  h !! p = Some (Fulfilled v) ->
  settle p c (mkState h q st rq lg) = mkState h q st rq lg.
Proof. intros H. unfold settle. simpl. rewrite H. reflexivity. Qed.

Lemma settle_rejected h q st rq lg p r c :
  h !! p = Some (Rejected r) ->
  settle p c (mkState h q st rq lg) = mkState h q st rq lg.
Proof. intros H. unfold settle. simpl. rewrite H. reflexivity. Qed.

Lemma store_set_started h q st rq lg i x subs v :
  st !! i = Some (mkStore x subs true) ->
  store_set i v (mkState h q st rq lg)
  = if safe_not_equal x v
    then mkState h q (<[i := mkStore v subs true]> st) rq
           (lg ++ map EInvalidate subs ++ map (fun sub => ERun sub v) subs)
    else mkState h q st rq lg.
Proof. intros H. unfold store_set. simpl. rewrite H. reflexivity. Qed.

Lemma store_set_stopped h q st rq lg i x subs v :
  st !! i = Some (mkStore x subs false) ->
  store_set i v (mkState h q st rq lg)
  = if safe_not_equal x v
    then mkState h q (<[i := mkStore v subs false]> st) rq lg
    else mkState h q st rq lg.
Proof. intros H. unfold store_set. simpl. rewrite H. reflexivity. Qed.

Lemma drain_quiescent n s : queue s = [] -> drain n s = s.
Proof.
  intros H. induction n as [|n IH]; simpl; [reflexivity|].
  unfold tick. rewrite H. exact IH.
Qed.

Lemma drain_add n m s : drain (n + m) s = drain m (drain n s).
Proof.
  revert s. induction n as [|n IH]; intros s; simpl; [reflexivity | apply IH].
Qed.

(** Once the queue is empty, more turns change nothing. *)
Lemma drain_enough k n s s' :
  drain k s = s' -> queue s' = [] -> k <= n -> drain n s = s'.
Proof.
  intros Hk Hq Hle. replace n with (k + (n - k)) by lia.
  rewrite drain_add, Hk. apply drain_quiescent, Hq.
Qed.

Lemma tick_cons h j js st rq lg :
  tick (mkState h (j :: js) st rq lg) = run_job j (mkState h js st rq lg).
Proof. reflexivity. Qed.

Lemma resolve_plain q x s : is_promise x = false -> resolve q x s = fulfill q x s.
Proof. destruct x; try reflexivity; discriminate. Qed.

Lemma promise_resolve_plain x s :
  is_promise x = false -> promise_resolve x s = alloc (Fulfilled x) s.
Proof. destruct x; try reflexivity; discriminate. Qed.

(** Proof automation: lengths of heaps that grew by allocation, and
    lookups in them. *)
Ltac heap_len :=
  repeat rewrite ?length_app, ?length_insert; simpl length;
  repeat match goal with
         | H : _ !! _ = Some _ |- _ => apply lookup_lt_Some in H
         end;
  lia.

Ltac heap_ne := first [ heap_len | congruence ].

Ltac heap_lookup :=
  repeat first
    [ rewrite list_lookup_insert_eq by heap_len
    | rewrite list_lookup_insert_ne by heap_ne
    | rewrite lookup_app_l by heap_len
    | rewrite list_lookup_middle by heap_len ];
  first [ eassumption | reflexivity ].

#[local] Arguments perform_then : simpl never.
#[local] Arguments settle : simpl never.
#[local] Arguments store_set : simpl never.

(** One step of symbolic execution of the host. *)
Ltac host_step :=
  first
    [ rewrite tick_cons
    | rewrite resolve_plain by assumption
    | rewrite promise_resolve_plain by assumption
    | erewrite perform_then_pending by heap_lookup
    | erewrite perform_then_fulfilled by heap_lookup
    | erewrite perform_then_rejected by heap_lookup
    | erewrite settle_pending by heap_lookup
    | erewrite settle_fulfilled by heap_lookup
    | erewrite settle_rejected by heap_lookup
    | erewrite store_set_started by heap_lookup
    | erewrite store_set_stopped by heap_lookup
    | rewrite list_lookup_middle by heap_len
    | rewrite list_lookup_insert_eq by heap_len
    | rewrite list_lookup_insert_ne by heap_ne
    | rewrite lookup_app_l by heap_len
    | match goal with
      | H : ?l !! ?i = _ |- context [ ?l !! ?i ] => rewrite H
      end
    | match goal with
      | H : ?b = _ |- context [ if ?b then _ else _ ] => rewrite H
      end
    | match goal with
      | H : ?x = Return _ |- context [ ?x ] => rewrite H
      | H : ?x = Throw _ |- context [ ?x ] => rewrite H
      | H : ?x = _ |- context [ match ?x with _ => _ end ] => rewrite H
      end
    | rewrite Nat.eqb_refl
    | match goal with
      | |- context [ Nat.eqb ?a ?b ] => rewrite (proj2 (Nat.eqb_neq a b)) by heap_len
      end
    | progress (unfold reject, fulfill, resolve, promise_then, alloc, set_heap,
                enqueue, emit, set_stores, record_request)
    | progress simpl ].

Ltac host_run := repeat host_step.

(** The host, started in the state of the goal, is quiescent after [k]
    turns; the goal becomes one about the state reached. *)
Ltac settles_in k :=
  erewrite (drain_enough k); [ | host_run; reflexivity | reflexivity | lia ].

(** ** Subscribing *)

(** What a subscriber of [promisable i p] is called with, over time.
    It is run with the placeholder before any microtask; after the
    settlement a fulfilment value that Svelte's [safe_not_equal] tells
    from the placeholder reaches it once, and nothing else does. *)
Lemma subscribe_trace (s : State) (i : val) (p : pid) (c : completion)
    (sub : nat) (late : bool) (n : nat) :
  queue s = [] ->
  heap s !! p = Some (Pending []) ->
  log (drain n (snd (settle_around late p c (subscribe (promisable i p) sub) s)))
  = log s ++ ERun sub i ::
      match n, c with
      | S _, Return v =>
          if safe_not_equal i v then [EInvalidate sub; ERun sub v] else []
      | _, _ => []
      end.
Proof.
  destruct s as [h q st rq lg]; simpl; intros -> Hp.
  destruct n as [|n].
  - destruct late, c; unfold settle_around, subscribe, readable_subscribe;
      host_run; reflexivity.
  - destruct late, c as [v|r]; try destruct (safe_not_equal i v) eqn:E;
      unfold settle_around, subscribe, readable_subscribe; host_run;
      rewrite drain_quiescent by reflexivity; simpl;
      rewrite <- ?app_assoc; reflexivity.
Qed.

(** C2, as the code has it.  A subscriber of a future with placeholder
    [i] over an operation that resolves to [v] is run with [i] at
    subscribe time, before any microtask, and once more, with [v],
    after the settlement, when [v] differs from [i] for Svelte's
    [safe_not_equal] (another primitive, or any object).  When [v] is
    the same primitive as [i] the store drops the [set] and the
    subscriber is not run again. *)
Theorem subscribe_placeholder_then_value (s : State) (i v : val) (p : pid)
    (sub : nat) (late : bool) (n : nat) :
  queue s = [] ->
  heap s !! p = Some (Pending []) ->
  let s' := snd (settle_around late p (Return v) (subscribe (promisable i p) sub) s) in
  log s' = log s ++ [ERun sub i] /\
  log (drain (S n) s')
  = log s ++ ERun sub i ::
      (if safe_not_equal i v then [EInvalidate sub; ERun sub v] else []).
Proof.
  intros Hq Hp s'. split.
  - apply (subscribe_trace s i p (Return v) sub late 0 Hq Hp).
  - apply (subscribe_trace s i p (Return v) sub late (S n) Hq Hp).
Qed.

Lemma subscribe_placeholder_then_value_witness :
  let s := mkState [Pending []] [] [] [] [] in
  let s' := snd (settle_around true 0 (Return (VNum 7))
                   (subscribe (promisable VUndefined 0) 1) s) in
  queue s = [] /\
  heap s !! 0 = Some (Pending []) /\
  log s' = [ERun 1 VUndefined] /\
  log (drain 3 s') = [ERun 1 VUndefined; EInvalidate 1; ERun 1 (VNum 7)].
Proof.
  split; [reflexivity|]. split; [reflexivity|].
  apply (subscribe_placeholder_then_value (mkState [Pending []] [] [] [] [])
           VUndefined (VNum 7) 0 1 true 2); reflexivity.
Defined.

(** C2, as stated, fails: the demo's [post$(...).then$(() => {...})]
    resolves to [undefined], the placeholder of every future the
    library makes; its subscriber is run once, not twice. *)
Lemma subscribe_same_primitive_runs_once :
  let s := mkState [Pending []] [] [] [] [] in
  let s' := snd (settle_around true 0 (Return VUndefined)
                   (subscribe (promisable VUndefined 0) 1) s) in
  heap (drain 3 s') !! 0 = Some (Fulfilled VUndefined) /\
  queue (drain 3 s') = [] /\
  log (drain 3 s') = [ERun 1 VUndefined] /\
  log (drain 3 s') <> [ERun 1 VUndefined; EInvalidate 1; ERun 1 VUndefined] /\
  log (drain 3 s') <> [ERun 1 VUndefined; ERun 1 VUndefined].
Proof. repeat split; discriminate. Qed.

(** C3.  When the promise rejects, a subscriber is run with the
    placeholder and never again, however long the host runs: the
    reaction that [subscribe] registers has a handler for fulfilment
    and none for rejection. *)
Theorem subscribe_silent_on_rejection (s : State) (i r : val) (p : pid)
    (sub : nat) (late : bool) (n : nat) :
  queue s = [] ->
  heap s !! p = Some (Pending []) ->
  heap (snd (subscribe (promisable i p) sub s)) !! p
  = Some (Pending [mkReaction (Some (CSet (length (stores s)))) None
                     (Some (length (heap s)))]) /\
  log (drain n (snd (settle_around late p (Throw r)
                       (subscribe (promisable i p) sub) s)))
  = log s ++ [ERun sub i].
Proof.
  intros Hq Hp. split.
  - destruct s as [h q st rq lg]; simpl in *.
    unfold subscribe, readable_subscribe. host_run. heap_lookup.
  - rewrite (subscribe_trace s i p (Throw r) sub late n Hq Hp).
    destruct n; reflexivity.
Qed.

Lemma subscribe_silent_on_rejection_witness :
  let s := mkState [Pending []] [] [] [] [] in
  queue s = [] /\
  heap s !! 0 = Some (Pending []) /\
  heap (snd (subscribe (promisable VUndefined 0) 1 s)) !! 0
  = Some (Pending [mkReaction (Some (CSet 0)) None (Some 1)]) /\
  log (drain 5 (snd (settle_around true 0 (Throw (VStr "down"))
                       (subscribe (promisable VUndefined 0) 1) s)))
  = [ERun 1 VUndefined].
Proof.
  split; [reflexivity|]. split; [reflexivity|].
  apply (subscribe_silent_on_rejection (mkState [Pending []] [] [] [] [])
           VUndefined (VStr "down") 0 1 true 5); reflexivity.
Defined.

(** Unsubscribing before the settlement: the value does not reach the
    subscriber. *)
Example unsubscribed_before_settlement :
  let s := mkState [Pending []] [] [] [] [] in
  let '(st, s1) := subscribe (promisable VUndefined 0) 1 s in
  let s2 := unsubscribe st 1 s1 in
  log (drain 3 (fulfill 0 (VNum 7) s2)) = [ERun 1 VUndefined].
Proof. reflexivity. Qed.

(** ** [startWith$] *)

(** C7.  [startWith$] gives a future over the very same promise, with
    the new placeholder: it is a function of the future alone, so it
    starts no operation, issues no request and registers nothing; the
    settlement of the two futures is that of the one promise, and a
    subscriber of the new future sees the new placeholder and then
    what a subscriber of the old one sees. *)
Theorem startWith_shares_promise (f : Promisable) (q : val) (s : State)
    (c : completion) (sub : nat) (late : bool) (n : nat) :
  queue s = [] ->
  heap s !! _promise f = Some (Pending []) ->
  _promise (startWith' f q) = _promise f /\
  _initialValue (startWith' f q) = q /\
  heap s !! _promise (startWith' f q) = heap s !! _promise f /\
  log (drain n (snd (settle_around late (_promise f) c
                       (subscribe (startWith' f q) sub) s)))
  = log s ++ ERun sub q ::
      match n, c with
      | S _, Return v =>
          if safe_not_equal q v then [EInvalidate sub; ERun sub v] else []
      | _, _ => []
      end.
Proof.
  intros Hq Hp. repeat split.
  destruct f as [i p]. simpl in *. unfold startWith'. simpl.
  apply (subscribe_trace s q p c sub late n Hq Hp).
Qed.

Lemma startWith_shares_promise_witness :
  let f := promisable VUndefined 0 in
  let s := mkState [Pending []] [] [] [] [] in
  queue s = [] /\
  heap s !! _promise f = Some (Pending []) /\
  _promise (startWith' f (VArr [])) = 0 /\
  _initialValue (startWith' f (VArr [])) = VArr [] /\
  heap s !! _promise (startWith' f (VArr [])) = heap s !! 0 /\
  log (drain 2 (snd (settle_around true 0 (Return (VArr [VNum 1]))
                       (subscribe (startWith' f (VArr [])) 1) s)))
  = [ERun 1 (VArr []); EInvalidate 1; ERun 1 (VArr [VNum 1])].
Proof.
  split; [reflexivity|]. split; [reflexivity|].
  apply (startWith_shares_promise (promisable VUndefined 0) (VArr [])
           (mkState [Pending []] [] [] [] []) (Return (VArr [VNum 1])) 1 true 2);
    reflexivity.
Defined.

(** ** [then$] *)

Section Then.

Variables (s : State) (i : val) (p : pid) (l : nat) (g : val -> completion).
Variables (late : bool) (n : nat).
Hypothesis quiescent : queue s = [].
Hypothesis started : heap s !! p = Some (Pending []).

Let chained (c : completion) : Promisable * State :=
  settle_around late p c (then' (promisable i p) (Some (CUser l g))) s.

(** The operation fails: the handler is not called, at no time, and
    the derived promise rejects with the same reason. *)
Lemma then_skips_handler (r : val) :
  log (drain n (snd (chained (Throw r)))) = log s /\
  heap (drain (S n) (snd (chained (Throw r)))) !! _promise (fst (chained (Throw r)))
  = Some (Rejected r).
Proof.
  subst chained. destruct s as [h q st rq lg]; simpl in *; subst q.
  destruct late; unfold settle_around, then'; host_run;
    (split; [destruct n|]); host_run;
    rewrite ?drain_quiescent by reflexivity; simpl;
    try reflexivity; heap_lookup.
Qed.

(** The operation succeeds and the handler throws. *)
Lemma then_handler_throws (v e : val) :
  g v = Throw e ->
  log (drain (S n) (snd (chained (Return v)))) = log s ++ [ECall l v] /\
  heap (drain (S n) (snd (chained (Return v)))) !! _promise (fst (chained (Return v)))
  = Some (Rejected e).
Proof.
  intros Hg. subst chained. destruct s as [h q st rq lg]; simpl in *; subst q.
  destruct late; unfold settle_around, then'; host_run; split; host_run;
    rewrite ?drain_quiescent by reflexivity; simpl;
    try reflexivity; heap_lookup.
Qed.

(** The operation succeeds and the handler returns a rejected promise. *)
Lemma then_handler_returns_rejected (v e : val) (t : pid) :
  g v = Return (VPromise t) ->
  heap s !! t = Some (Rejected e) ->
  log (drain (3 + n) (snd (chained (Return v)))) = log s ++ [ECall l v] /\
  heap (drain (3 + n) (snd (chained (Return v)))) !! _promise (fst (chained (Return v)))
  = Some (Rejected e).
Proof.
  intros Hg Ht. subst chained. destruct s as [h q st rq lg]; simpl in *; subst q.
  destruct late; unfold settle_around, then'; host_run; split; host_run;
    rewrite ?drain_quiescent by reflexivity; simpl;
    try reflexivity; heap_lookup.
Qed.

(** The operation succeeds and the handler returns a plain value. *)
Lemma then_handler_returns (v y : val) :
  g v = Return y ->
  is_promise y = false ->
  log (drain (S n) (snd (chained (Return v)))) = log s ++ [ECall l v] /\
  heap (drain (S n) (snd (chained (Return v)))) !! _promise (fst (chained (Return v)))
  = Some (Fulfilled y).
Proof.
  intros Hg Hy. subst chained. destruct s as [h q st rq lg]; simpl in *; subst q.
  destruct late; unfold settle_around, then'; host_run; split; host_run;
    rewrite ?drain_quiescent by reflexivity; simpl;
    try reflexivity; heap_lookup.
Qed.

End Then.

(** C5.  [f.then$(g)] over an operation that fails: [g] is not called
    (the log never grows) and the derived future fails with the very
    reason of [f].  Over an operation that succeeds with a value on
    which [g] throws, or for which [g] returns a promise that is
    rejected, the derived future fails with what [g] threw, or with the
    reason of that promise. *)
Theorem then_failure_short_circuits (s : State) (i r v1 e1 v2 e2 : val)
    (p t : pid) (l : nat) (g : val -> completion) (late : bool) (n : nat) :
  queue s = [] ->
  heap s !! p = Some (Pending []) ->
  let chained c :=
    settle_around late p c (then' (promisable i p) (Some (CUser l g))) s in
  (log (drain n (snd (chained (Throw r)))) = log s /\
   heap (drain (S n) (snd (chained (Throw r)))) !! _promise (fst (chained (Throw r)))
   = Some (Rejected r)) /\
  (g v1 = Throw e1 ->
   heap (drain (S n) (snd (chained (Return v1)))) !! _promise (fst (chained (Return v1)))
   = Some (Rejected e1)) /\
  (g v2 = Return (VPromise t) ->
   heap s !! t = Some (Rejected e2) ->
   heap (drain (3 + n) (snd (chained (Return v2)))) !! _promise (fst (chained (Return v2)))
   = Some (Rejected e2)).
Proof.
  intros Hq Hp chained. split; [|split].
  - apply then_skips_handler; assumption.
  - intros Hg. apply (then_handler_throws s i p l g late n Hq Hp v1 e1 Hg).
  - intros Hg Ht. apply (then_handler_returns_rejected s i p l g late n Hq Hp v2 e2 t Hg Ht).
Qed.

Lemma then_failure_short_circuits_witness :
  let s := mkState [Pending []; Rejected (VStr "gone")] [] [] [] [] in
  let chained c :=
    settle_around true 0 c (then' (promisable VUndefined 0) (Some (CUser 5 picky))) s in
  queue s = [] /\
  heap s !! 0 = Some (Pending []) /\
  picky (VNum 0) = Throw (VStr "zero") /\
  picky (VNum 1) = Return (VPromise 1) /\
  heap s !! 1 = Some (Rejected (VStr "gone")) /\
  (log (drain 4 (snd (chained (Throw (VStr "down"))))) = [] /\
   heap (drain 5 (snd (chained (Throw (VStr "down")))))
     !! _promise (fst (chained (Throw (VStr "down"))))
   = Some (Rejected (VStr "down"))) /\
  heap (drain 5 (snd (chained (Return (VNum 0)))))
    !! _promise (fst (chained (Return (VNum 0))))
  = Some (Rejected (VStr "zero")) /\
  heap (drain 7 (snd (chained (Return (VNum 1)))))
    !! _promise (fst (chained (Return (VNum 1))))
  = Some (Rejected (VStr "gone")).
Proof.
  pose proof (then_failure_short_circuits
                (mkState [Pending []; Rejected (VStr "gone")] [] [] [] [])
                VUndefined (VStr "down") (VNum 0) (VStr "zero") (VNum 1) (VStr "gone")
                0 1 5 picky true 4 eq_refl eq_refl) as [Ha [Hb Hc]].
  do 5 (split; [reflexivity|]).
  split; [exact Ha|]. split; [exact (Hb eq_refl) | exact (Hc eq_refl eq_refl)].
Defined.

(** ** Chains *)

Lemma promise_then_frame (p : pid) (onF onR : option callback) (s : State) :
  fst (promise_then p onF onR s) = length (heap s) /\
  requests (snd (promise_then p onF onR s)) = requests s /\
  log (snd (promise_then p onF onR s)) = log s /\
  settlement (heap (snd (promise_then p onF onR s)) !! p) = settlement (heap s !! p).
Proof.
  destruct s as [h q st rq lg]. unfold promise_then, alloc, set_heap. simpl.
  destruct (decide (p < length h)) as [Hlt|Hge].
  - destruct (h !! p) as [[rs|v|r]|] eqn:Ep.
    + host_run. repeat split.
    + host_run. repeat split.
    + host_run. repeat split.
    + apply lookup_ge_None in Ep. lia.
  - rewrite (proj2 (lookup_ge_None h p)) by lia.
    destruct (decide (p = length h)) as [->|Hne].
    + host_run. repeat split.
    + unfold perform_then. simpl.
      rewrite (proj2 (lookup_ge_None (h ++ [Pending []]) p)) by heap_len.
      simpl. repeat split.
      rewrite (proj2 (lookup_ge_None (h ++ [Pending []]) p)) by heap_len.
      reflexivity.
Qed.

Lemma then'_derives f cb s : derives f s (then' f cb s).
Proof.
  unfold derives, then'.
  pose proof (promise_then_frame (_promise f) cb None s) as (H1 & H2 & H3 & H4).
  destruct (promise_then _ _ _ _) as [q s1]. simpl in *. auto.
Qed.

Lemma catch'_derives f cb s : derives f s (catch' f cb s).
Proof.
  unfold derives, catch'.
  pose proof (promise_then_frame (_promise f) None cb s) as (H1 & H2 & H3 & H4).
  destruct (promise_then _ _ _ _) as [q s1]. simpl in *. auto.
Qed.

Lemma finally'_derives f cb s : derives f s (finally' f cb s).
Proof.
  unfold derives, finally', promise_finally. destruct cb as [cb|].
  - pose proof (promise_then_frame (_promise f) (Some (CThenFinally cb))
                  (Some (CCatchFinally cb)) s) as (H1 & H2 & H3 & H4).
    destruct (promise_then _ _ _ _) as [q s1]. simpl in *. auto.
  - pose proof (promise_then_frame (_promise f) None None s) as (H1 & H2 & H3 & H4).
    destruct (promise_then _ _ _ _) as [q s1]. simpl in *. auto.
Qed.

Ltac host_finish :=
  repeat split; host_run; rewrite ?drain_quiescent by reflexivity; simpl;
  try reflexivity; try discriminate;
  try (match goal with
       | |- @eq (list event) _ _ => rewrite <- ?app_assoc; reflexivity
       end);
  try heap_lookup.

(** The two ways of chaining [a] and [b] agree when [a] hands no
    promise on: on the state of the promise they end with, and on the
    calls of [a] and [b]. *)
Lemma then_then_compose (s : State) (i : val) (c : completion) (p : pid)
    (la lb : nat) (a b : val -> completion) (late : bool) (n : nat) :
  queue s = [] ->
  heap s !! p = Some (Pending []) ->
  heap_ok s ->
  settlement_ok c ->
  (forall x, plain (a x) = true) ->
  (forall x t, b x = Return (VPromise t) -> t < length (heap s)) ->
  let r1 := settle_around late p c
              (then_then (promisable i p) (CUser la a) (CUser lb b)) s in
  let r2 := settle_around late p c
              (then' (promisable i p) (Some (CCompose lb b la a))) s in
  heap (drain (4 + n) (snd r1)) !! _promise (fst r1)
  = heap (drain (4 + n) (snd r2)) !! _promise (fst r2) /\
  log (drain (4 + n) (snd r1)) = log (drain (4 + n) (snd r2)) /\
  (plain (chain_result a b c) = true ->
   heap (drain (4 + n) (snd r1)) !! _promise (fst r1)
   = Some (settled (chain_result a b c))).
Proof.
  destruct s as [h q st rq lg]; simpl; intros -> Hp Hok Hc Ha Hb.
  destruct c as [v|r]; simpl in Hc.
  - pose proof (Ha v) as Hav. destruct (a v) as [y|e] eqn:Eav; simpl in Hav.
    + apply negb_true_iff in Hav.
      destruct (b y) as [z|e] eqn:Eby.
      * destruct (is_promise z) eqn:Hz.
        -- destruct z; try discriminate. rename p0 into t.
           pose proof (Hb y t Eby) as Hlt. simpl in Hlt.
           destruct (decide (t = p)) as [->|Hne].
           ++ destruct late; unfold settle_around, then_then, then';
                host_run; rewrite ?Eav; host_finish.
           ++ destruct (h !! t) as [[rs|w|r]|] eqn:Et.
              ** destruct late; unfold settle_around, then_then, then';
                   host_run; rewrite ?Eav; host_finish.
              ** pose proof (Hok t w Et) as Hw.
                 destruct late; unfold settle_around, then_then, then';
                   host_run; rewrite ?Eav; host_finish.
              ** destruct late; unfold settle_around, then_then, then';
                   host_run; rewrite ?Eav; host_finish.
              ** apply lookup_ge_None in Et. lia.
        -- destruct late; unfold settle_around, then_then, then';
             host_run; rewrite ?Eav; host_finish.
      * destruct late; unfold settle_around, then_then, then';
          host_run; rewrite ?Eav; host_finish.
    + destruct late; unfold settle_around, then_then, then';
        host_run; rewrite ?Eav; host_finish.
  - destruct late; unfold settle_around, then_then, then'; host_run; host_finish.
Qed.

(** C6, as the code has it.  For a handler [a] that returns a plain
    value or throws, [f.then$(a).then$(b)] and [f.then$(x => b(a(x)))]
    end alike: the promises of the two futures reach the same state
    (the same value, or the same reason when [f], [a] or [b] fails),
    [a] and [b] are called alike, and where no promise is adopted that
    state is the one [chain_result] names.  Every transformation
    derives a new future and leaves its receiver as it was. *)
Theorem then_chain_composes (s : State) (f : Promisable) (c : completion)
    (la lb : nat) (a b : val -> completion) (cb : option callback)
    (late : bool) (n : nat) :
  queue s = [] ->
  heap s !! _promise f = Some (Pending []) ->
  heap_ok s ->
  settlement_ok c ->
  (forall x, plain (a x) = true) ->
  (forall x t, b x = Return (VPromise t) -> t < length (heap s)) ->
  let r1 := settle_around late (_promise f) c
              (then_then f (CUser la a) (CUser lb b)) s in
  let r2 := settle_around late (_promise f) c
              (then' f (Some (CCompose lb b la a))) s in
  (heap (drain (4 + n) (snd r1)) !! _promise (fst r1)
   = heap (drain (4 + n) (snd r2)) !! _promise (fst r2) /\
   log (drain (4 + n) (snd r1)) = log (drain (4 + n) (snd r2)) /\
   (plain (chain_result a b c) = true ->
    heap (drain (4 + n) (snd r1)) !! _promise (fst r1)
    = Some (settled (chain_result a b c)))) /\
  derives f s (then' f cb s) /\
  derives f s (catch' f cb s) /\
  derives f s (finally' f cb s).
Proof.
  intros Hq Hp Hok Hc Ha Hb. destruct f as [i p]. simpl in Hp.
  split; [| repeat split; first [ apply then'_derives | apply catch'_derives
                                | apply finally'_derives ] ].
  apply (then_then_compose s i c p la lb a b late n Hq Hp Hok Hc Ha Hb).
Qed.

Lemma then_chain_composes_witness :
  let s := mkState [Pending []] [] [] [] [] in
  let f := promisable VUndefined 0 in
  let r1 := settle_around true 0 (Return (VNum 1))
              (then_then f (CUser 1 successor) (CUser 2 successor)) s in
  let r2 := settle_around true 0 (Return (VNum 1))
              (then' f (Some (CCompose 2 successor 1 successor))) s in
  queue s = [] /\
  heap s !! _promise f = Some (Pending []) /\
  heap_ok s /\
  settlement_ok (Return (VNum 1)) /\
  (forall x, plain (successor x) = true) /\
  (forall x t, successor x = Return (VPromise t) -> t < length (heap s)) /\
  heap (drain 4 (snd r1)) !! _promise (fst r1) = Some (Fulfilled (VNum 3)) /\
  heap (drain 4 (snd r2)) !! _promise (fst r2) = Some (Fulfilled (VNum 3)) /\
  log (drain 4 (snd r1)) = log (drain 4 (snd r2)).
Proof.
  assert (Hok : heap_ok (mkState [Pending []] [] [] [] [])).
  { intros [|t] w H; simpl in H; [discriminate | destruct t; discriminate]. }
  assert (Ha : forall x, plain (successor x) = true).
  { intros x. destruct x; reflexivity. }
  assert (Hb : forall x t, successor x = Return (VPromise t) ->
                           t < length (heap (mkState [Pending []] [] [] [] []))).
  { intros x t H. destruct x; discriminate. }
  pose proof (then_chain_composes (mkState [Pending []] [] [] [] [])
                (promisable VUndefined 0) (Return (VNum 1)) 1 2 successor successor
                None true 0 eq_refl eq_refl Hok eq_refl Ha Hb) as [[Heq [Hlog Hres]] _].
  split; [reflexivity|]. split; [reflexivity|]. split; [exact Hok|].
  split; [reflexivity|]. split; [exact Ha|]. split; [exact Hb|].
  split; [exact (Hres eq_refl)|].
  split; [|exact Hlog].
  exact (eq_trans (eq_sym Heq) (Hres eq_refl)).
Defined.

(** C6, as stated, fails: when [a] hands back a promise, [then$]
    unwraps it before [b] runs, and [x => b(a(x))] gives [b] the
    promise itself.  Here the chain ends fulfilled with [2] and the
    composition ends rejected. *)
Lemma then_chain_differs_on_async_handler :
  let s := mkState [Pending []; Fulfilled (VNum 1)] [] [] [] [] in
  let f := promisable VUndefined 0 in
  let r1 := settle_around true 0 (Return (VNum 0))
              (then_then f (CUser 1 hands_promise) (CUser 2 successor)) s in
  let r2 := settle_around true 0 (Return (VNum 0))
              (then' f (Some (CCompose 2 successor 1 hands_promise))) s in
  heap (drain 8 (snd r1)) !! _promise (fst r1) = Some (Fulfilled (VNum 2)) /\
  heap (drain 8 (snd r2)) !! _promise (fst r2)
  = Some (Rejected (VError "TypeError" "not a number")) /\
  queue (drain 8 (snd r1)) = [] /\
  queue (drain 8 (snd r2)) = [] /\
  heap (drain 8 (snd r1)) !! _promise (fst r1)
  <> heap (drain 8 (snd r2)) !! _promise (fst r2).
Proof. repeat split; discriminate. Qed.

(** ** Error classification *)

(** What [fetchErrorHandled$] makes of a response: once the host has
    fulfilled the promise of [fetch] with [r], the future settles, within four
    microtasks, to [classified r]. *)
Lemma fetchErrorHandled_settles (s : State) (input : val) (init : option obj)
    (r : response) (n : nat) :
  queue s = [] ->
  let res := fetchErrorHandled' input init s in
  let s' := drain (4 + n) (fulfill (length (heap s)) (VResponse r) (snd res)) in
  heap s' !! _promise (fst res) = Some (classified r) /\
  log s' = log s /\
  requests s' = requests s ++ [mkRequest input init].
Proof.
  destruct s as [h q st rq lg]; simpl; intros ->.
  unfold classified, wants_json.
  destruct (ok r) eqn:Eok.
  - unfold fetchErrorHandled', fetch', fetch, then'. host_run. host_finish.
  - destruct (Headers_get "content-type" (headers r)) as [ct|] eqn:Ect.
    + destruct (includes "application/json" ct) eqn:Einc.
      * destruct (bodyJson r) as [body|] eqn:Ebody;
          unfold fetchErrorHandled', fetch', fetch, then', response_json; host_run; host_finish.
      * unfold fetchErrorHandled', fetch', fetch, then', response_text; host_run; host_finish.
    + unfold fetchErrorHandled', fetch', fetch, then', response_text; host_run; host_finish.
Qed.

(** The two scenarios of the specification hold. *)
Example classify_404_json :
  let r := mkResponse false 404 "Not Found" [("content-type", "application/json")]
             (with_quotes ["{"; "error"; ":"; "missing"; "}"]) in
  let res := fetchErrorHandled' (VStr "/posts/9") None initial in
  heap (drain 4 (fulfill 0 (VResponse r) (snd res))) !! _promise (fst res)
  = Some (Rejected (HttpError 404 "Not Found" (VObj [("error", VStr "missing")]))).
Proof. reflexivity. Qed.

Example classify_500_text :
  let r := mkResponse false 500 "Internal Server Error" [("content-type", "text/plain")]
             "boom" in
  let res := fetchErrorHandled' (VStr "/posts") None initial in
  heap (drain 4 (fulfill 0 (VResponse r) (snd res))) !! _promise (fst res)
  = Some (Rejected (HttpError 500 "Internal Server Error" (VStr "boom"))).
Proof. reflexivity. Qed.

Example classify_ok_unchanged :
  let r := mkResponse true 200 "OK" [("content-type", "application/json")] "[1,2]" in
  let res := fetchErrorHandled' (VStr "/posts") None initial in
  heap (drain 4 (fulfill 0 (VResponse r) (snd res))) !! _promise (fst res)
  = Some (Fulfilled (VResponse r)).
Proof. reflexivity. Qed.

(** C4 at the input where the code leaves it: a response that is not
    ok and announces JSON, with a body that is not JSON (a gateway's
    HTML page).  [await response.json()] rejects inside the async
    arrow, so the future fails with the [SyntaxError] of the parser: no
    [HttpError] is made, and the status 502 is lost. *)
Theorem classify_malformed_json_is_not_HttpError :
  let r := mkResponse false 502 "Bad Gateway" [("content-type", "application/json")]
             "<html>Bad Gateway</html>" in
  let res := fetchErrorHandled' (VStr "/posts") None initial in
  let s' := drain 4 (fulfill 0 (VResponse r) (snd res)) in
  JSON_parse (bodyText r) = None /\
  queue s' = [] /\
  heap s' !! _promise (fst res) = Some (Rejected syntax_error) /\
  forall body,
    heap s' !! _promise (fst res)
    <> Some (Rejected (HttpError 502 "Bad Gateway" body)).
Proof. repeat split. intros body H. discriminate H. Qed.

(** ** [catch$] *)

(** A failure reaches the handler of [catch$], whose value fulfils the
    derived future; a success passes the handler by. *)
Lemma catch_recovers (s : State) (i r y : val) (p : pid) (l : nat)
    (h : val -> completion) (late : bool) (n : nat) :
  queue s = [] ->
  heap s !! p = Some (Pending []) ->
  h r = Return y ->
  is_promise y = false ->
  let res := settle_around late p (Throw r)
               (catch' (promisable i p) (Some (CUser l h))) s in
  log (drain (S n) (snd res)) = log s ++ [ECall l r] /\
  heap (drain (S n) (snd res)) !! _promise (fst res) = Some (Fulfilled y).
Proof.
  destruct s as [hp q st rq lg]; simpl; intros -> Hp Hh Hy.
  destruct late; unfold settle_around, catch'; host_run; host_finish.
Qed.

Lemma catch_passes_success (s : State) (i v : val) (p : pid) (l : nat)
    (h : val -> completion) (late : bool) (n : nat) :
  queue s = [] ->
  heap s !! p = Some (Pending []) ->
  is_promise v = false ->
  let res := settle_around late p (Return v)
               (catch' (promisable i p) (Some (CUser l h))) s in
  log (drain n (snd res)) = log s /\
  heap (drain (S n) (snd res)) !! _promise (fst res) = Some (Fulfilled v).
Proof.
  destruct s as [hp q st rq lg]; simpl; intros -> Hp Hv.
  destruct late; unfold settle_around, catch'; host_run;
    (split; [destruct n|]); host_run; host_finish.
Qed.

(** ** Whole requests *)

(** [getJson$] with a subscriber: the request goes out with the method
    GET, the subscriber sees [undefined] and then the decoded body. *)
Example getJson_subscriber :
  let r := mkResponse true 200 "OK" [("content-type", "application/json")] "[1,2]" in
  let '(f, s1) := getJson' (VStr "/posts") None initial in
  let '(_, s2) := subscribe f 1 s1 in
  let s3 := drain 9 (fulfill 0 (VResponse r) s2) in
  requests s3 = [mkRequest (VStr "/posts") (Some [("method", VStr "GET")])] /\
  queue s3 = [] /\
  log s3 = [ERun 1 VUndefined; EInvalidate 1; ERun 1 (VArr [VNum 1; VNum 2])].
Proof. repeat split. Qed.

(** The demo's list of posts:
    [getJson$('posts').catch$(() => []).startWith$([])] on a server
    that answers 500.  The subscriber starts with the empty list and
    gets the empty list of the handler. *)
Example demo_refreshPosts_on_failure :
  let r := mkResponse false 500 "Internal Server Error" [] "oops" in
  let c := new_SvelteHttpClient (VStr "https://jsonplaceholder.typicode.com") [] in
  match Client.getJson' URL_as_given c (VStr "posts") None initial with
  | (Done f, s1) =>
      let '(f1, s2) := catch' f (Some (CUser 1 (fun _ => Return (VArr [])))) s1 in
      let f2 := startWith' f1 (VArr []) in
      let '(_, s3) := subscribe f2 2 s2 in
      let s4 := drain 12 (fulfill 0 (VResponse r) s3) in
      queue s4 = [] /\
      log s4 = [ERun 2 (VArr []);
                ECall 1 (HttpError 500 "Internal Server Error" (VStr "oops"));
                EInvalidate 2; ERun 2 (VArr [])]
  | (Raised _, _) => False
  end.
Proof. repeat split. Qed.

(** [postJson$] of a client: the body goes out as JSON text, in the
    order of the keys, and the future resolves to the decoded answer. *)
Example postJson_scenario :
  let r := mkResponse true 201 "Created" [("content-type", "application/json")]
             (with_quotes ["{"; "id"; ":101}"]) in
  let c := new_SvelteHttpClient (VStr "https://api.example.com/") [] in
  match Client.postJson' URL_as_given c (VStr "posts")
          (VObj [("title", VStr "a"); ("body", VStr "b"); ("userId", VNum 1)])
          None initial with
  | (Done f, s1) =>
      let s2 := drain 9 (fulfill 0 (VResponse r) s1) in
      last_init s2
      = Some [("method", VStr "POST");
              ("body", VStr (with_quotes ["{"; "title"; ":"; "a"; ","; "body"; ":"; "b";
                                          ","; "userId"; ":1}"]))] /\
      heap s2 !! _promise f = Some (Fulfilled (VObj [("id", VNum 101)]))
  | (Raised _, _) => False
  end.
Proof. repeat split. Qed.

(** ** What no call undoes *)

Lemma evolves_refl s : evolves s s.
Proof.
  repeat split; auto. exists []. rewrite app_nil_r. reflexivity.
Qed.

Lemma evolves_trans s1 s2 s3 : evolves s1 s2 -> evolves s2 s3 -> evolves s1 s3.
Proof.
  intros (H1 & R1 & [e1 L1] & N1) (H2 & R2 & [e2 L2] & N2). repeat split.
  - intros p c Hp. apply H2, H1, Hp.
  - congruence.
  - exists (e1 ++ e2). rewrite L2, L1, app_assoc. reflexivity.
  - lia.
Qed.

Lemma evolves_same s s' :
  heap s' = heap s -> requests s' = requests s -> log s' = log s -> evolves s s'.
Proof.
  intros Hh Hr Hl. repeat split.
  - intros p c Hp. rewrite Hh. exact Hp.
  - exact Hr.
  - exists []. rewrite app_nil_r. exact Hl.
  - rewrite Hh. lia.
Qed.

Lemma evolves_emit es s : evolves s (emit es s).
Proof. repeat split; auto. exists es. reflexivity. Qed.

Lemma evolves_enqueue js s : evolves s (enqueue js s).
Proof. apply evolves_same; reflexivity. Qed.

Lemma evolves_set_stores f s : evolves s (set_stores f s).
Proof. apply evolves_same; reflexivity. Qed.

Lemma evolves_alloc ps s : evolves s (snd (alloc ps s)).
Proof.
  destruct s as [h q st rq lg]. unfold alloc, set_heap. simpl. repeat split; simpl.
  - intros p c Hp. rewrite lookup_app_l by (apply lookup_lt_Some in Hp; exact Hp). exact Hp.
  - exists []. rewrite app_nil_r. reflexivity.
  - rewrite length_app. lia.
Qed.

Lemma settled_not_pending c rs : settled c <> Pending rs.
Proof. destruct c; discriminate. Qed.

Lemma evolves_set_pending p x s rs :
  heap s !! p = Some (Pending rs) -> evolves s (set_heap <[p := x]> s).
Proof.
  intros Hp. destruct s as [h q st rq lg]. unfold set_heap. simpl in *. repeat split; simpl.
  - intros p' c Hp'. destruct (decide (p = p')) as [->|Hne].
    + rewrite Hp in Hp'. inversion Hp' as [E]. symmetry in E. destruct (settled_not_pending _ _ E).
    + rewrite list_lookup_insert_ne by exact Hne. exact Hp'.
  - exists []. rewrite app_nil_r. reflexivity.
  - rewrite length_insert. lia.
Qed.

Lemma evolves_perform_then p rc s : evolves s (perform_then p rc s).
Proof.
  unfold perform_then. destruct (heap s !! p) as [[rs|v|r]|] eqn:Hp.
  - apply (evolves_set_pending p _ s rs Hp).
  - apply evolves_enqueue.
  - apply evolves_enqueue.
  - apply evolves_refl.
Qed.

Lemma evolves_settle p c s : evolves s (settle p c s).
Proof.
  unfold settle. destruct (heap s !! p) as [[rs|v|r]|] eqn:Hp;
    try apply evolves_refl.
  eapply evolves_trans; [apply (evolves_set_pending p (settled c) s rs Hp) | apply evolves_enqueue].
Qed.

Lemma evolves_promise_then p onF onR s : evolves s (snd (promise_then p onF onR s)).
Proof.
  unfold promise_then. 
  pose proof (evolves_alloc (Pending []) s) as Ha.
  destruct (alloc (Pending []) s) as [q s1]. simpl in *.
  eapply evolves_trans; [exact Ha | apply evolves_perform_then].
Qed.

Lemma evolves_resolve q x s : evolves s (resolve q x s).
Proof.
  unfold resolve, fulfill, reject. destruct x; try apply evolves_settle.
  destruct (Nat.eqb p q); [apply evolves_settle | apply evolves_enqueue].
Qed.

Lemma evolves_promise_resolve x s : evolves s (snd (promise_resolve x s)).
Proof.
  unfold promise_resolve. destruct x; try apply evolves_alloc. apply evolves_refl.
Qed.

Lemma evolves_store_set st v s : evolves s (store_set st v s).
Proof.
  unfold store_set. destruct (stores s !! st) as [sto|]; [|apply evolves_refl].
  destruct (safe_not_equal (s_value sto) v); [|apply evolves_refl].
  destruct (s_stop sto).
  - eapply evolves_trans; [apply evolves_set_stores | apply evolves_emit].
  - apply evolves_set_stores.
Qed.

Lemma evolves_response_json r s : evolves s (snd (response_json r s)).
Proof. apply evolves_alloc. Qed.

Lemma evolves_response_text r s : evolves s (snd (response_text r s)).
Proof. apply evolves_alloc. Qed.

Lemma evolves_call cb : forall arg s, evolves s (snd (call cb arg s)).
Proof.
  induction cb; intros arg s; cbn [call].
  - apply evolves_emit.
  - destruct (a arg); apply evolves_emit.
  - apply evolves_resolve.
  - apply evolves_settle.
  - apply evolves_store_set.
  - pose proof (evolves_alloc (Pending []) s) as Ha.
    destruct (alloc (Pending []) s) as [p s1]. cbn [snd] in Ha.
    destruct arg as [ | |b|z|str|items|fields|r|nm msg st stt body|nm msg|t]; cbn [snd];
      try (eapply evolves_trans; [exact Ha | apply evolves_settle]).
    destruct (ok r); cbn [snd].
    + eapply evolves_trans; [exact Ha | apply evolves_resolve].
    + assert (Hb : forall x, evolves s1 (snd x) -> evolves s
                 (snd (let '(body, s2) := x in
                       (Return (VPromise p),
                        perform_then body
                          (mkReaction (Some (CClassifyResume p (status r) (statusText r)))
                             (Some (CReject p)) None) s2)))).
      { intros [b s2] Hx. cbn [snd] in *.
        eapply evolves_trans; [exact Ha|].
        eapply evolves_trans; [exact Hx | apply evolves_perform_then]. }
      apply Hb.
      destruct (Headers_get "content-type" (headers r)) as [ct|];
        [destruct (includes "application/json" ct)|];
        first [apply evolves_response_json | apply evolves_response_text].
  - apply evolves_settle.
  - destruct arg as [ | |b|z|str|items|fields|r|nm msg st stt body|nm msg|t]; cbn [snd];
      try apply evolves_refl.
    pose proof (evolves_response_json r s) as Hj.
    destruct (response_json r s) as [p s1]. exact Hj.
  - pose proof (IHcb VUndefined s) as H1.
    destruct (call cb VUndefined s) as [[x|r] s1]; cbn [snd] in *; [|exact H1].
    pose proof (evolves_promise_resolve x s1) as H2.
    destruct (promise_resolve x s1) as [t s2]. cbn [snd] in H2.
    pose proof (evolves_promise_then t (Some (CValueThunk arg)) None s2) as H3.
    destruct (promise_then t (Some (CValueThunk arg)) None s2) as [d s3]. cbn [snd] in *.
    eapply evolves_trans; [exact H1|]. eapply evolves_trans; [exact H2 | exact H3].
  - pose proof (IHcb VUndefined s) as H1.
    destruct (call cb VUndefined s) as [[x|r] s1]; cbn [snd] in *; [|exact H1].
    pose proof (evolves_promise_resolve x s1) as H2.
    destruct (promise_resolve x s1) as [t s2]. cbn [snd] in H2.
    pose proof (evolves_promise_then t (Some (CThrower arg)) None s2) as H3.
    destruct (promise_then t (Some (CThrower arg)) None s2) as [d s3]. cbn [snd] in *.
    eapply evolves_trans; [exact H1|]. eapply evolves_trans; [exact H2 | exact H3].
  - apply evolves_refl.
  - apply evolves_refl.
Qed.

Lemma evolves_run_job j s : evolves s (run_job j s).
Proof.
  destruct j as [rc c|q t]; simpl.
  - assert (H : forall x : completion * State, evolves s (snd x) ->
              evolves s (let '(res, s1) := x in
                         match target rc with
                         | Some q => match res with
                                     | Return v => resolve q v s1
                                     | Throw r => reject q r s1
                                     end
                         | None => s1
                         end)).
    { intros [res s1] Hx. simpl in Hx. destruct (target rc) as [q|]; [|exact Hx].
      eapply evolves_trans; [exact Hx|].
      destruct res; [apply evolves_resolve | apply evolves_settle]. }
    apply H.
    destruct c; simpl.
    + destruct (on_fulfilled rc); [apply evolves_call | apply evolves_refl].
    + destruct (on_rejected rc); [apply evolves_call | apply evolves_refl].
  - apply evolves_promise_then.
Qed.

Lemma evolves_tick s : evolves s (tick s).
Proof.
  unfold tick. destruct s as [h [|j js] st rq lg]; simpl; [apply evolves_refl|].
  pose proof (evolves_run_job j (mkState h js st rq lg)) as H.
  destruct H as (H1 & H2 & H3 & H4). repeat split; assumption.
Qed.

Lemma evolves_drain n : forall s, evolves s (drain n s).
Proof.
  induction n as [|n IH]; intros s; simpl; [apply evolves_refl|].
  eapply evolves_trans; [apply evolves_tick | apply IH].
Qed.

Lemma evolves_then' f cb s : evolves s (snd (then' f cb s)).
Proof.
  unfold then'. pose proof (evolves_promise_then (_promise f) cb None s) as H.
  destruct (promise_then _ _ _ _). exact H.
Qed.

Lemma evolves_catch' f cb s : evolves s (snd (catch' f cb s)).
Proof.
  unfold catch'. pose proof (evolves_promise_then (_promise f) None cb s) as H.
  destruct (promise_then _ _ _ _). exact H.
Qed.

Lemma evolves_finally' f cb s : evolves s (snd (finally' f cb s)).
Proof.
  unfold finally', promise_finally.
  destruct cb as [cb|];
    [ pose proof (evolves_promise_then (_promise f) (Some (CThenFinally cb))
                    (Some (CCatchFinally cb)) s) as H
    | pose proof (evolves_promise_then (_promise f) None None s) as H ];
    destruct (promise_then _ _ _ _); exact H.
Qed.

Lemma evolves_subscribe f sub s : evolves s (snd (subscribe f sub s)).
Proof.
  unfold subscribe, readable_subscribe.
  match goal with
  | |- context [ stores ?s3 !! _ ] =>
      assert (H3 : evolves s s3);
      [ | destruct (stores s3 !! length (stores s));
          [eapply evolves_trans; [exact H3 | apply evolves_emit] | exact H3] ]
  end.
  eapply evolves_trans; [apply evolves_set_stores|].
  eapply evolves_trans; [apply evolves_promise_then | apply evolves_set_stores].
Qed.

Lemma evolves_unsubscribe st sub s : evolves s (unsubscribe st sub s).
Proof. apply evolves_set_stores. Qed.

Lemma evolves_perform a s : evolves s (perform a s).
Proof.
  destruct a; simpl.
  - apply evolves_then'.
  - apply evolves_catch'.
  - apply evolves_finally'.
  - apply evolves_subscribe.
  - apply evolves_unsubscribe.
  - apply evolves_settle.
  - apply evolves_drain.
Qed.

Lemma evolves_perform_all acts : forall s, evolves s (perform_all acts s).
Proof.
  induction acts as [|a acts IH]; intros s; simpl; [apply evolves_refl|].
  eapply evolves_trans; [apply evolves_perform | apply IH].
Qed.

(** X14.  A settlement is final.  Once a promise has settled, nothing
    the caller does with the futures (chaining with [then$], [catch$]
    or [finally$], subscribing, unsubscribing), no later attempt to
    settle it and no microtask changes its value or its reason. *)
Theorem settlement_is_final (acts : list action) (s : State) (p : pid) (c : completion) :
  heap s !! p = Some (settled c) ->
  heap (perform_all acts s) !! p = Some (settled c).
Proof. intros Hp. exact (proj1 (evolves_perform_all acts s) p c Hp). Qed.

Lemma settlement_is_final_witness :
  let s := mkState [Fulfilled (VNum 1%Z)] [] [] [] [] in
  let f := promisable VUndefined 0 in
  let acts := [AThen f (Some (CUser 1 successor)); ASubscribe f 2;
               ASettle 0 (Throw (VStr "late")); ATurns 3] in
  heap s !! 0 = Some (settled (Return (VNum 1%Z))) /\
  heap (perform_all acts s) !! 0 = Some (settled (Return (VNum 1%Z))).
Proof.
  split; [reflexivity|].
  apply (settlement_is_final
           [AThen (promisable VUndefined 0) (Some (CUser 1 successor));
            ASubscribe (promisable VUndefined 0) 2;
            ASettle 0 (Throw (VStr "late")); ATurns 3]
           (mkState [Fulfilled (VNum 1%Z)] [] [] [] []) 0 (Return (VNum 1%Z)) eq_refl).
Defined.

(** X15.  The library's own links and closures issue no request.
    The calls [then$], [catch$], [finally$], [subscribe] and the
    unsubscriber, a settlement by the host, and the microtasks that
    run what the library registers (the classification, the JSON
    decoding, the [set] of a store, the wrappers of [finally]) leave
    the list of issued requests as it is, in any number and order:
    deriving a future or subscribing to it does not start the
    operation again.  A function of the caller is known here by its
    completion and its place in the log alone, so a request that such
    a function issues itself, as a callback that calls a verb does, is
    not part of the statement.  The log only grows. *)
Theorem only_verbs_issue_requests (acts : list action) (s : State) :
  requests (perform_all acts s) = requests s /\
  exists es, log (perform_all acts s) = log s ++ es.
Proof.
  destruct (evolves_perform_all acts s) as (_ & Hr & Hl & _). split; assumption.
Qed.

(** ** The parser of the examples *)

Lemma parse_value_is_json fuel cs v r :
  parse_value fuel cs = Some (v, r) -> is_json v = true.
Proof.
  destruct fuel as [|fuel']; [discriminate|]. cbn [parse_value].
  destruct (skip_ws cs) as [|c rest]; [discriminate|].
  destruct (Nat.eqb (nat_of_ascii c) 110).
  { unfold expect. destruct (starts_with _ _); intros H; inversion H; reflexivity. }
  destruct (Nat.eqb (nat_of_ascii c) 116).
  { unfold expect. destruct (starts_with _ _); intros H; inversion H; reflexivity. }
  destruct (Nat.eqb (nat_of_ascii c) 102).
  { unfold expect. destruct (starts_with _ _); intros H; inversion H; reflexivity. }
  destruct (Nat.eqb (nat_of_ascii c) 34).
  { destruct (parse_string_body rest []) as [[str r']|]; intros H; inversion H; reflexivity. }
  destruct (Nat.eqb (nat_of_ascii c) 45).
  { destruct (parse_nat_lit rest) as [[k r']|]; intros H; inversion H; reflexivity. }
  destruct (Nat.eqb (nat_of_ascii c) 91).
  { destruct (skip_ws rest) as [|c' r']; [discriminate|].
    destruct (Nat.eqb (nat_of_ascii c') 93); [intros H; inversion H; reflexivity|].
    generalize (@nil val) as acc. generalize rest as cs'.
    generalize fuel' at 2 as k.
    induction k as [|k IH]; intros cs' acc; cbn beta iota fix; [discriminate|].
    destruct (parse_value fuel' cs') as [[v' r1]|]; [|discriminate].
    destruct (skip_ws r1) as [|d r2]; [discriminate|].
    destruct (Nat.eqb (nat_of_ascii d) 44); [apply IH|].
    destruct (Nat.eqb (nat_of_ascii d) 93); intros H; inversion H; reflexivity. }
  destruct (Nat.eqb (nat_of_ascii c) 123).
  { destruct (skip_ws rest) as [|c' r']; [discriminate|].
    destruct (Nat.eqb (nat_of_ascii c') 125); [intros H; inversion H; reflexivity|].
    generalize (@nil (string * val)) as acc. generalize rest as cs'.
    generalize fuel' at 2 as k.
    induction k as [|k IH]; intros cs' acc; cbn beta iota fix; [discriminate|].
    destruct (skip_ws cs') as [|q r0]; [discriminate|].
    destruct (Nat.eqb (nat_of_ascii q) 34); [|discriminate].
    destruct (parse_string_body r0 []) as [[key r1]|]; [|discriminate].
    destruct (skip_ws r1) as [|colon r2]; [discriminate|].
    destruct (Nat.eqb (nat_of_ascii colon) 58); [|discriminate].
    destruct (parse_value fuel' r2) as [[v' r3]|]; [|discriminate].
    destruct (skip_ws r3) as [|d r4]; [discriminate|].
    destruct (Nat.eqb (nat_of_ascii d) 44); [apply IH|].
    destruct (Nat.eqb (nat_of_ascii d) 125); intros H; inversion H; reflexivity. }
  destruct (parse_nat_lit (c :: rest)) as [[k r']|]; intros H; inversion H; reflexivity.
Qed.

Lemma JSON_parse_is_json text v : JSON_parse text = Some v -> is_json v = true.
Proof.
  unfold JSON_parse.
  destruct (parse_value _ _) as [[v' rest]|] eqn:E; [|discriminate].
  destruct (skip_ws rest); [|discriminate].
  intros H. inversion H. subst. eapply parse_value_is_json, E.
Qed.

(** A response written by its body text gives a JSON value. *)
Lemma mkResponse_gives_json o st stt hs text : gives_json (mkResponse o st stt hs text).
Proof.
  unfold gives_json, mkResponse. simpl.
  destruct (JSON_parse text) as [v|] eqn:E; [|exact I].
  apply (JSON_parse_is_json text v E).
Qed.


(** ** The options a verb passes on *)

Lemma obj_get_copy k (o : obj) : wf_obj o -> obj_get k (spread [] o) = obj_get k o.
Proof.
  intros Hwf. rewrite obj_get_spread by exact Hwf.
  destruct (obj_get k o); reflexivity.
Qed.

Lemma obj_get_with_method m init k :
  wf_obj init ->
  obj_get k (with_method m init) = with_method_key m (fun k' => obj_get k' init) k.
Proof.
  intros Hwf. unfold with_method, with_method_key. rewrite obj_get_set.
  destruct (String.eqb k "method"); [reflexivity | apply obj_get_copy, Hwf].
Qed.

Lemma obj_get_with_method_body m body init k :
  wf_obj init ->
  k <> "body" ->
  obj_get k (with_method_body m body init)
  = with_method_key m (fun k' => obj_get k' init) k.
Proof.
  intros Hwf Hk. unfold with_method_body.
  rewrite obj_get_set_ne by exact Hk. apply (obj_get_with_method m init k Hwf).
Qed.

Lemma obj_get_merged c init k :
  wf_obj (_init c) -> wf_obj (default_init init) ->
  obj_get k (Client.merged c init) = merged_by_key c init k.
Proof.
  intros Hc Hi. unfold Client.merged, merged_by_key.
  rewrite obj_get_spread by exact Hi. rewrite obj_get_copy by exact Hc. reflexivity.
Qed.

Lemma wf_merged c init : wf_obj (Client.merged c init).
Proof. apply wf_spread, wf_spread, wf_empty. Qed.

Lemma with_method_key_ext m (f g : string -> option val) k :
  (forall k', f k' = g k') -> with_method_key m f k = with_method_key m g k.
Proof.
  intros H. unfold with_method_key. destruct (String.eqb k "method"); [reflexivity | apply H].
Qed.



Lemma not_in_one (k a : string) : k ∉ [a] -> k <> a.
Proof. intros H ->. apply H. left. Qed.





(** ** The client *)

Lemma snd_bound {A} (new_URL : val -> val -> completion) (c : SvelteHttpClient)
    (endpoint url : val) (k : val -> State -> A * State) (s : State) :
  new_URL endpoint (_baseUrl c) = Return url ->
  snd (Client.bound new_URL c endpoint k s) = snd (k url s).
Proof.
  intros H. unfold Client.bound. rewrite H. destruct (k url s). reflexivity.
Qed.

Lemma client_passes_bodiless (new_URL : val -> val -> completion)
    (h : val -> option obj -> State -> Promisable * State) m c endpoint url init s :
  (forall i o s0, requests (snd (h i o s0)) = requests s0 ++ [mkRequest i o]) ->
  wf_obj (_init c) -> wf_obj (default_init init) ->
  new_URL endpoint (_baseUrl c) = Return url ->
  passes_except [] url (with_method_key m (merged_by_key c init)) s
    (snd (Client.bound new_URL c endpoint
            (fun u => h u (Some (with_method m (Client.merged c init)))) s)).
Proof.
  intros Hh Hc Hi Hurl. rewrite (snd_bound _ _ _ _ _ _ Hurl).
  eexists. split; [apply Hh|]. intros k _.
  rewrite obj_get_with_method by apply wf_merged.
  apply with_method_key_ext. intros k'. apply obj_get_merged; assumption.
Qed.

Lemma client_passes_with_body (new_URL : val -> val -> completion)
    (h : val -> option obj -> State -> Promisable * State) m c endpoint url body init s :
  (forall i o s0, requests (snd (h i o s0)) = requests s0 ++ [mkRequest i o]) ->
  wf_obj (_init c) -> wf_obj (default_init init) ->
  new_URL endpoint (_baseUrl c) = Return url ->
  passes_except ["body"] url (with_method_key m (merged_by_key c init)) s
    (snd (Client.bound new_URL c endpoint
            (fun u => h u (Some (with_method_body m
                                   (default_arg VNull (default_arg VNull body))
                                   (Client.merged c init)))) s)).
Proof.
  intros Hh Hc Hi Hurl. rewrite (snd_bound _ _ _ _ _ _ Hurl).
  eexists. split; [apply Hh|]. intros k Hk. apply not_in_one in Hk.
  rewrite obj_get_with_method_body by (try apply wf_merged; exact Hk).
  apply with_method_key_ext. intros k'. apply obj_get_merged; assumption.
Qed.

Lemma client_fetch_passes (new_URL : val -> val -> completion) (is_Request : val -> bool)
    (Request_url : val -> val) (new_Request : val -> val -> completion)
    (js_plus : val -> val -> val) (c : SvelteHttpClient) (input x : val)
    (init : option obj) (s : State) :
  wf_obj (_init c) -> wf_obj (default_init init) ->
  (if is_Request input
   then new_Request (js_plus (_baseUrl c) (Request_url input)) input
   else new_URL input (_baseUrl c)) = Return x ->
  passes_except [] x (merged_by_key c init) s
    (snd (Client.fetch' new_URL is_Request Request_url new_Request js_plus c input init s)).
Proof.
  intros Hc Hi Hx. unfold Client.fetch'. rewrite Hx.
  pose proof (requests_fetch' x (Some (Client.merged c init)) s) as Hr.
  destruct (fetch' x (Some (Client.merged c init)) s) as [f s1]. simpl in *.
  eexists. split; [exact Hr|]. intros k _. apply obj_get_merged; assumption.
Qed.

(** X12.  Every method of a client issues one request, with the
    options [{...defaults, ...perCall}] under the verb's own method:
    key by key, the verb's method comes first, then the value of the
    call, then the default; this holds under every key, and for
    [post$], [put$], [patch$] and their Json variants under every key
    but [body].  The ten verb methods send it to the URL that
    [new URL(endpoint, base)] gives.  [fetch$] of a client sets no
    method; it sends the merged options to [new URL(input, base)] for
    an input that is no [Request], and to
    [new Request(base + input.url, input)] for a [Request]. *)
Theorem client_methods_merge_by_key
    (new_URL : val -> val -> completion) (is_Request : val -> bool)
    (Request_url : val -> val) (new_Request : val -> val -> completion)
    (js_plus : val -> val -> val) (c : SvelteHttpClient)
    (endpoint url body : val) (init : option obj) (s : State) :
  wf_obj (_init c) ->
  wf_obj (default_init init) ->
  new_URL endpoint (_baseUrl c) = Return url ->
  let rest := merged_by_key c init in
  let client_fetch := Client.fetch' new_URL is_Request Request_url new_Request js_plus in
  (forall input x,
     is_Request input = false ->
     new_URL input (_baseUrl c) = Return x ->
     passes_except [] x rest s (snd (client_fetch c input init s))) /\
  (forall input x,
     is_Request input = true ->
     new_Request (js_plus (_baseUrl c) (Request_url input)) input = Return x ->
     passes_except [] x rest s (snd (client_fetch c input init s))) /\
  passes_except [] url (with_method_key "GET" rest) s
    (snd (Client.get' new_URL c endpoint init s)) /\
  passes_except [] url (with_method_key "GET" rest) s
    (snd (Client.getJson' new_URL c endpoint init s)) /\
  passes_except [] url (with_method_key "DELETE" rest) s
    (snd (Client.delete' new_URL c endpoint init s)) /\
  passes_except [] url (with_method_key "DELETE" rest) s
    (snd (Client.deleteJson' new_URL c endpoint init s)) /\
  passes_except ["body"] url (with_method_key "POST" rest) s
    (snd (Client.post' new_URL c endpoint body init s)) /\
  passes_except ["body"] url (with_method_key "POST" rest) s
    (snd (Client.postJson' new_URL c endpoint body init s)) /\
  passes_except ["body"] url (with_method_key "PUT" rest) s
    (snd (Client.put' new_URL c endpoint body init s)) /\
  passes_except ["body"] url (with_method_key "PUT" rest) s
    (snd (Client.putJson' new_URL c endpoint body init s)) /\
  passes_except ["body"] url (with_method_key "PATCH" rest) s
    (snd (Client.patch' new_URL c endpoint body init s)) /\
  passes_except ["body"] url (with_method_key "PATCH" rest) s
    (snd (Client.patchJson' new_URL c endpoint body init s)).
Proof.
  intros Hc Hi Hurl rest client_fetch.
  assert (Hplain : forall input x,
            is_Request input = false ->
            new_URL input (_baseUrl c) = Return x ->
            passes_except [] x rest s (snd (client_fetch c input init s))).
  { intros input x Hno Hx. apply client_fetch_passes; try assumption.
    rewrite Hno. exact Hx. }
  assert (Hreq : forall input x,
            is_Request input = true ->
            new_Request (js_plus (_baseUrl c) (Request_url input)) input = Return x ->
            passes_except [] x rest s (snd (client_fetch c input init s))).
  { intros input x Hyes Hx. apply client_fetch_passes; try assumption.
    rewrite Hyes. exact Hx. }
  pose proof (fun m => client_passes_bodiless new_URL fetchErrorHandled' m c endpoint url
                         init s requests_fetchErrorHandled' Hc Hi Hurl) as Hraw.
  pose proof (fun m => client_passes_bodiless new_URL fetchJson' m c endpoint url
                         init s requests_fetchJson' Hc Hi Hurl) as Hjson.
  pose proof (fun m => client_passes_with_body new_URL fetchErrorHandled' m c endpoint url
                         body init s requests_fetchErrorHandled' Hc Hi Hurl) as Hraw_body.
  pose proof (fun m => client_passes_with_body new_URL fetchJson' m c endpoint url
                         body init s requests_fetchJson' Hc Hi Hurl) as Hjson_body.
  refine (conj Hplain (conj Hreq
         (conj (Hraw "GET") (conj (Hjson "GET") (conj (Hraw "DELETE") (conj (Hjson "DELETE")
         (conj (Hraw_body "POST") (conj (Hjson_body "POST")
         (conj (Hraw_body "PUT") (conj (Hjson_body "PUT")
         (conj (Hraw_body "PATCH") (Hjson_body "PATCH")))))))))))).
Qed.

Lemma client_methods_merge_by_key_witness :
  let is_Request := fun v : val => match v with VObj _ => true | _ => false end in
  let Request_url := fun v : val =>
                       match v with
                       | VObj fields => default VUndefined (obj_get "url" fields)
                       | _ => VUndefined
                       end in
  let new_Request := fun url _ : val => Return (VObj [("url", url)]) in
  let js_plus := fun a b : val =>
                   match a, b with
                   | VStr x, VStr y => VStr (x ++ y)
                   | _, _ => VUndefined
                   end in
  let c := new_SvelteHttpClient (VStr "https://api.example.com/")
             [("method", VStr "GET")] in
  let endpoint := VStr "posts" in
  let url := VStr "posts" in
  let body := VNum 1 in
  let init := Some [("mode", VStr "cors")] in
  let s := initial in
  let rest := merged_by_key c init in
  let client_fetch := Client.fetch' URL_as_given is_Request Request_url new_Request
                        js_plus in
  wf_obj (_init c) /\
  wf_obj (default_init init) /\
  URL_as_given endpoint (_baseUrl c) = Return url /\
  (forall input x,
     is_Request input = false ->
     URL_as_given input (_baseUrl c) = Return x ->
     passes_except [] x rest s (snd (client_fetch c input init s))) /\
  (forall input x,
     is_Request input = true ->
     new_Request (js_plus (_baseUrl c) (Request_url input)) input = Return x ->
     passes_except [] x rest s (snd (client_fetch c input init s))) /\
  passes_except [] url (with_method_key "GET" rest) s
    (snd (Client.get' URL_as_given c endpoint init s)) /\
  passes_except [] url (with_method_key "GET" rest) s
    (snd (Client.getJson' URL_as_given c endpoint init s)) /\
  passes_except [] url (with_method_key "DELETE" rest) s
    (snd (Client.delete' URL_as_given c endpoint init s)) /\
  passes_except [] url (with_method_key "DELETE" rest) s
    (snd (Client.deleteJson' URL_as_given c endpoint init s)) /\
  passes_except ["body"] url (with_method_key "POST" rest) s
    (snd (Client.post' URL_as_given c endpoint body init s)) /\
  passes_except ["body"] url (with_method_key "POST" rest) s
    (snd (Client.postJson' URL_as_given c endpoint body init s)) /\
  passes_except ["body"] url (with_method_key "PUT" rest) s
    (snd (Client.put' URL_as_given c endpoint body init s)) /\
  passes_except ["body"] url (with_method_key "PUT" rest) s
    (snd (Client.putJson' URL_as_given c endpoint body init s)) /\
  passes_except ["body"] url (with_method_key "PATCH" rest) s
    (snd (Client.patch' URL_as_given c endpoint body init s)) /\
  passes_except ["body"] url (with_method_key "PATCH" rest) s
    (snd (Client.patchJson' URL_as_given c endpoint body init s)).
Proof.
  split; [apply wf_one_key|]. split; [apply wf_one_key|]. split; [reflexivity|].
  exact (client_methods_merge_by_key URL_as_given
           (fun v => match v with VObj _ => true | _ => false end)
           (fun v => match v with
                     | VObj fields => default VUndefined (obj_get "url" fields)
                     | _ => VUndefined
                     end)
           (fun url _ => Return (VObj [("url", url)]))
           (fun a b => match a, b with
                       | VStr x, VStr y => VStr (x ++ y)
                       | _, _ => VUndefined
                       end)
           (new_SvelteHttpClient (VStr "https://api.example.com/")
              [("method", VStr "GET")])
           (VStr "posts") (VStr "posts") (VNum 1) (Some [("mode", VStr "cors")])
           initial (wf_one_key _ _) (wf_one_key _ _) eq_refl).
Defined.

(** ** The library on explicit states *)

Lemma lookup_fresh {A} (l1 l2 : list A) (n k : nat) :
  n = length l1 + k -> (l1 ++ l2) !! n = l2 !! k.
Proof.
  intros ->. rewrite lookup_app_r by lia.
  replace (length l1 + k - length l1) with k by lia. reflexivity.
Qed.

Lemma insert_fresh {A} (l1 l2 : list A) (n k : nat) (x : A) :
  n = length l1 + k -> <[n := x]> (l1 ++ l2) = l1 ++ <[k := x]> l2.
Proof. intros ->. apply insert_app_r. Qed.

Lemma drain_cons n h j js st rq lg :
  drain (S n) (mkState h (j :: js) st rq lg) = drain n (run_job j (mkState h js st rq lg)).
Proof. reflexivity. Qed.

Lemma drain_zero s : drain 0 s = s.
Proof. reflexivity. Qed.

Lemma drain_nil n h st rq lg :
  drain n (mkState h [] st rq lg) = mkState h [] st rq lg.
Proof. apply drain_quiescent. reflexivity. Qed.

Lemma promise_then_pending h q st rq lg p rs onF onR :
  h !! p = Some (Pending rs) ->
  promise_then p onF onR (mkState h q st rq lg)
  = (length h,
     mkState (<[p := Pending (rs ++ [mkReaction onF onR (Some (length h))])]>
                (h ++ [Pending []])) q st rq lg).
Proof. intros Hp. unfold promise_then. host_run. reflexivity. Qed.

Lemma promise_then_fulfilled h q st rq lg p v onF onR :
  h !! p = Some (Fulfilled v) ->
  promise_then p onF onR (mkState h q st rq lg)
  = (length h,
     mkState (h ++ [Pending []])
       (q ++ [JReaction (mkReaction onF onR (Some (length h))) (Return v)]) st rq lg).
Proof. intros Hp. unfold promise_then. host_run. reflexivity. Qed.

Lemma promise_then_rejected h q st rq lg p r onF onR :
  h !! p = Some (Rejected r) ->
  promise_then p onF onR (mkState h q st rq lg)
  = (length h,
     mkState (h ++ [Pending []])
       (q ++ [JReaction (mkReaction onF onR (Some (length h))) (Throw r)]) st rq lg).
Proof. intros Hp. unfold promise_then. host_run. reflexivity. Qed.

Lemma subscribe_pending h q st rq lg i p rs sub :
  h !! p = Some (Pending rs) ->
  subscribe (promisable i p) sub (mkState h q st rq lg)
  = (length st,
     mkState (<[p := Pending (rs ++ [mkReaction (Some (CSet (length st))) None
                                        (Some (length h))])]> (h ++ [Pending []]))
       q (st ++ [mkStore i [sub] true]) rq (lg ++ [ERun sub i])).
Proof.
  intros Hp. unfold subscribe, readable_subscribe. host_run.
  rewrite (insert_app_r_alt st) by lia. rewrite Nat.sub_diag. reflexivity.
Qed.

Lemma subscribe_settled h q st rq lg i p c sub :
  h !! p = Some (settled c) ->
  subscribe (promisable i p) sub (mkState h q st rq lg)
  = (length st,
     mkState (h ++ [Pending []])
       (q ++ [JReaction (mkReaction (Some (CSet (length st))) None (Some (length h))) c])
       (st ++ [mkStore i [sub] true]) rq (lg ++ [ERun sub i])).
Proof.
  intros Hp. unfold subscribe, readable_subscribe.
  destruct c; simpl in Hp; host_run;
    rewrite (insert_app_r_alt st) by lia; rewrite Nat.sub_diag; reflexivity.
Qed.

Lemma unsubscribe_last h q st rq lg i x sub b :
  st !! i = Some (mkStore x [sub] b) ->
  unsubscribe i sub (mkState h q st rq lg)
  = mkState h q (<[i := mkStore x [] false]> st) rq lg.
Proof.
  intros Hi. unfold unsubscribe, set_stores. simpl. rewrite Hi. simpl.
  cbn. rewrite Nat.eqb_refl. reflexivity.
Qed.

Lemma then'_unfold f cb s :
  then' f cb s
  = (promisable (_initialValue f) (fst (promise_then (_promise f) cb None s)),
     snd (promise_then (_promise f) cb None s)).
Proof. unfold then'. destruct (promise_then _ _ _ _). reflexivity. Qed.

Lemma catch'_unfold f cb s :
  catch' f cb s
  = (promisable (_initialValue f) (fst (promise_then (_promise f) None cb s)),
     snd (promise_then (_promise f) None cb s)).
Proof. unfold catch'. destruct (promise_then _ _ _ _). reflexivity. Qed.

Lemma finally'_unfold f cb s :
  finally' f cb s
  = (promisable (_initialValue f) (fst (promise_finally (_promise f) cb s)),
     snd (promise_finally (_promise f) cb s)).
Proof. unfold finally'. destruct (promise_finally _ _ _). reflexivity. Qed.

Lemma fetch'_explicit input init h q st rq lg :
  fetch' input init (mkState h q st rq lg)
  = (promisable VUndefined (length h),
     mkState (h ++ [Pending []]) q st (rq ++ [mkRequest input init]) lg).
Proof. reflexivity. Qed.

Lemma fetchErrorHandled'_unfold input init s :
  fetchErrorHandled' input init s
  = then' (fst (fetch' input init s)) (Some CClassify) (snd (fetch' input init s)).
Proof. unfold fetchErrorHandled'. destruct (fetch' input init s). reflexivity. Qed.

Lemma fetchJson'_unfold input init s :
  fetchJson' input init s
  = then' (fst (fetchErrorHandled' input init s)) (Some CJson)
      (snd (fetchErrorHandled' input init s)).
Proof. unfold fetchJson'. destruct (fetchErrorHandled' input init s). reflexivity. Qed.

#[local] Arguments drain : simpl never.
#[local] Arguments tick : simpl never.
#[local] Arguments subscribe : simpl never.
#[local] Arguments unsubscribe : simpl never.
#[local] Arguments then' : simpl never.
#[local] Arguments catch' : simpl never.
#[local] Arguments finally' : simpl never.
#[local] Arguments promise_then : simpl never.
#[local] Arguments fetch' : simpl never.
#[local] Arguments fetchErrorHandled' : simpl never.
#[local] Arguments fetchJson' : simpl never.

Ltac hlen :=
  rewrite ?length_insert, ?length_app; simpl length;
  repeat match goal with
         | H : _ !! _ = Some _ |- _ => apply lookup_lt_Some in H
         end;
  lia.

Ltac hne := first [ hlen | congruence ].

(** A lookup in a list of the form [l ++ cells], where [l] is the list
    the scenario starts from, possibly written to. *)
Ltac hlookup_step :=
  match goal with
  | |- context [ (?l1 ++ ?l2) !! ?n ] =>
      lazymatch n with
      | length _ + ?k => rewrite (lookup_fresh l1 l2 n k) by hlen
      | length _ => rewrite (lookup_fresh l1 l2 n 0) by hlen
      | _ => rewrite (lookup_app_l l1 l2 n) by hlen
      end
  | |- context [ <[?i := ?x]> ?l !! ?j ] =>
      first [ rewrite (list_lookup_insert_eq l i x) by hlen
            | rewrite (list_lookup_insert_ne l i j x) by hne ]
  end.

Ltac hlookup :=
  repeat hlookup_step; cbn [lookup list_lookup]; first [ eassumption | reflexivity ].

(** [with_cell l i k] finds what [l] holds at [i] and hands the equation to [k]. *)
Ltac with_cell l i k :=
  let H := fresh "Hcell" in
  eassert (H : l !! i = Some _) by hlookup;
  k H; clear H.

(** One step of the library or of the host, on a state that is written
    out; lists are kept in the form [l ++ cells]. *)
Ltac lib_step :=
  match goal with
  | |- context [ (_ ++ _) ++ _ ] => rewrite <- app_assoc; simpl app
  | |- context [ length (<[_ := _]> _) ] => rewrite length_insert
  | |- context [ length (_ ++ _) ] => rewrite length_app; simpl length
  | |- context [ _ + S _ + S _ ] => rewrite <- Nat.add_assoc; simpl Nat.add
  | |- context [ <[?n := ?x]> (?l1 ++ ?l2) ] =>
      lazymatch n with
      | length _ + ?k => rewrite (insert_fresh l1 l2 n k x) by hlen
      | length _ => rewrite (insert_fresh l1 l2 n 0 x) by hlen
      | _ => rewrite (insert_app_l l1 l2 n x) by hlen
      end
  | |- context [ <[?n := _]> (<[?n := _]> _) ] => rewrite list_insert_insert_eq
  | |- context [ drain 0 _ ] => rewrite drain_zero
  | |- context [ drain (S _) (mkState _ (_ :: _) _ _ _) ] => rewrite drain_cons
  | |- context [ drain _ (mkState _ [] _ _ _) ] => rewrite drain_nil
  | |- context [ fetch' _ _ (mkState _ _ _ _ _) ] => rewrite fetch'_explicit
  | |- context [ fetchErrorHandled' ?i ?o (mkState ?h ?q ?st ?rq ?lg) ] =>
      rewrite (fetchErrorHandled'_unfold i o (mkState h q st rq lg))
  | |- context [ fetchJson' ?i ?o (mkState ?h ?q ?st ?rq ?lg) ] =>
      rewrite (fetchJson'_unfold i o (mkState h q st rq lg))
  | |- context [ then' ?f ?cb (mkState ?h ?q ?st ?rq ?lg) ] =>
      rewrite (then'_unfold f cb (mkState h q st rq lg))
  | |- context [ catch' ?f ?cb (mkState ?h ?q ?st ?rq ?lg) ] =>
      rewrite (catch'_unfold f cb (mkState h q st rq lg))
  | |- context [ finally' ?f ?cb (mkState ?h ?q ?st ?rq ?lg) ] =>
      rewrite (finally'_unfold f cb (mkState h q st rq lg)); unfold promise_finally
  | |- context [ subscribe (promisable _ ?p) _ (mkState ?h _ _ _ _) ] =>
      with_cell h p ltac:(fun H =>
        lazymatch type of H with
        | _ = Some (Pending _) => rewrite (subscribe_pending _ _ _ _ _ _ _ _ _ H)
        | _ = Some (Fulfilled ?v) => rewrite (subscribe_settled _ _ _ _ _ _ _ (Return v) _ H)
        | _ = Some (Rejected ?e) => rewrite (subscribe_settled _ _ _ _ _ _ _ (Throw e) _ H)
        end)
  | |- context [ unsubscribe ?i _ (mkState _ _ ?st _ _) ] =>
      with_cell st i ltac:(fun H => rewrite (unsubscribe_last _ _ _ _ _ _ _ _ _ H))
  | |- context [ promise_then ?p _ _ (mkState ?h _ _ _ _) ] =>
      with_cell h p ltac:(fun H =>
        lazymatch type of H with
        | _ = Some (Pending _) => rewrite (promise_then_pending _ _ _ _ _ _ _ _ _ H)
        | _ = Some (Fulfilled _) => rewrite (promise_then_fulfilled _ _ _ _ _ _ _ _ _ H)
        | _ = Some (Rejected _) => rewrite (promise_then_rejected _ _ _ _ _ _ _ _ _ H)
        end)
  | |- context [ perform_then ?p _ (mkState ?h _ _ _ _) ] =>
      with_cell h p ltac:(fun H =>
        lazymatch type of H with
        | _ = Some (Pending _) => rewrite (perform_then_pending _ _ _ _ _ _ _ _ H)
        | _ = Some (Fulfilled _) => rewrite (perform_then_fulfilled _ _ _ _ _ _ _ _ H)
        | _ = Some (Rejected _) => rewrite (perform_then_rejected _ _ _ _ _ _ _ _ H)
        end)
  | |- context [ settle ?p _ (mkState ?h _ _ _ _) ] =>
      with_cell h p ltac:(fun H =>
        lazymatch type of H with
        | _ = Some (Pending _) => rewrite (settle_pending _ _ _ _ _ _ _ _ H)
        | _ = Some (Fulfilled _) => rewrite (settle_fulfilled _ _ _ _ _ _ _ _ H)
        | _ = Some (Rejected _) => rewrite (settle_rejected _ _ _ _ _ _ _ _ H)
        end)
  | |- context [ store_set ?i _ (mkState _ _ ?st _ _) ] =>
      with_cell st i ltac:(fun H =>
        lazymatch type of H with
        | _ = Some (mkStore _ _ true) => rewrite (store_set_started _ _ _ _ _ _ _ _ _ H)
        | _ = Some (mkStore _ _ false) => rewrite (store_set_stopped _ _ _ _ _ _ _ _ _ H)
        end)
  | |- context [ resolve _ ?x _ ] =>
      rewrite (resolve_plain _ x) by first [ assumption | reflexivity ]
  | |- context [ promise_resolve ?x _ ] =>
      rewrite (promise_resolve_plain x) by first [ assumption | reflexivity ]
  | H : ?x = Return _ |- context [ ?x ] => rewrite H
  | H : ?x = Throw _ |- context [ ?x ] => rewrite H
  | H : ?b = _ |- context [ if ?b then _ else _ ] => rewrite H
  | H : ?x = _ |- context [ match ?x with _ => _ end ] => rewrite H
  | |- context [ Nat.eqb ?a ?a ] => rewrite Nat.eqb_refl
  | |- context [ Nat.eqb ?a ?b ] => rewrite (proj2 (Nat.eqb_neq a b)) by hlen
  | _ => progress (unfold reject, fulfill, alloc, set_heap, enqueue, emit,
                   set_stores, record_request, response_json, response_text)
  | _ => progress simpl
  end.

Ltac lib_run := repeat lib_step.

(** The run of the goal is evaluated once, on its own. *)
Ltac lib_eval :=
  repeat match goal with
         | |- context [ drain ?k ?E ] =>
             let H := fresh "Hrun" in
             eassert (H : drain k E = _) by (progress lib_run; reflexivity);
             rewrite H; clear H
         end.

Ltac lib_finish :=
  lib_eval; repeat split; lib_run;
  try reflexivity; try discriminate; try hlookup; try lia.

(** ** [finally$] *)

(** C8, as the code has it.  [f.finally$(cb)] calls [cb] once, in a
    microtask after the settlement and not before, whether the
    operation succeeds or fails and whatever the call does: return a
    plain value, return a promise, or throw.  The derived future keeps
    the placeholder of [f] and settles to [after_finally]: as [f]
    does, with the same value or the same reason, when the call
    returns a plain value or a promise that is fulfilled; with what
    the call threw when it throws; with the reason of the promise the
    call returned when that promise is rejected; and it stays pending
    while that promise is. *)
Theorem finally_runs_once_and_keeps_outcome (s : State) (i : val) (c : completion)
    (p : pid) (l : nat) (cb : val -> completion) (late : bool) (n : nat) :
  queue s = [] ->
  heap s !! p = Some (Pending []) ->
  settlement_ok c ->
  known s (cb VUndefined) ->
  let res := settle_around late p c (finally' (promisable i p) (Some (CUser l cb))) s in
  log (snd res) = log s /\
  log (drain (4 + n) (snd res)) = log s ++ [ECall l VUndefined] /\
  heap (drain (4 + n) (snd res)) !! _promise (fst res)
  = Some (after_finally s p c (cb VUndefined)) /\
  _initialValue (fst res) = i.
Proof.
  destruct s as [h q st rq lg]; intros Hq Hp Hc Hcb res; simpl in Hq, Hp; subst q res.
  unfold after_finally. cbn [heap].
  destruct (cb VUndefined) as [x|e] eqn:Ex.
  - destruct (is_promise x) eqn:Hx.
    + destruct x as [ | | | | | | | | | |t]; try discriminate. simpl in Hcb.
      destruct (Nat.eqb_spec t p) as [->|Hne].
      * destruct late, c as [v|r]; simpl in Hc; unfold settle_around; lib_finish.
      * destruct (h !! t) as [[rs|w|e]|] eqn:Ht;
          [ | | | apply lookup_ge_None in Ht; lia ];
          destruct late, c as [v|r]; simpl in Hc; unfold settle_around; lib_finish.
    + assert (Hplain : match x with VPromise _ => False | _ => True end)
        by (destruct x; try exact I; discriminate).
      destruct late, c as [v|r]; simpl in Hc; unfold settle_around; lib_finish;
        destruct x; first [contradiction | hlookup].
  - destruct late, c as [v|r]; simpl in Hc; unfold settle_around; lib_finish.
Qed.

Lemma finally_runs_once_and_keeps_outcome_witness :
  let s := mkState [Pending []; Rejected (VStr "busy")] [] [] [] [] in
  let cb := fun _ : val => Return (VPromise 1) in
  let res := settle_around true 0 (Return (VNum 1))
               (finally' (promisable VUndefined 0) (Some (CUser 3 cb))) s in
  queue s = [] /\
  heap s !! 0 = Some (Pending []) /\
  settlement_ok (Return (VNum 1)) /\
  known s (cb VUndefined) /\
  log (snd res) = [] /\
  log (drain 6 (snd res)) = [ECall 3 VUndefined] /\
  heap (drain 6 (snd res)) !! _promise (fst res) = Some (Rejected (VStr "busy")) /\
  _initialValue (fst res) = VUndefined.
Proof.
  split; [reflexivity|]. split; [reflexivity|]. split; [reflexivity|].
  split; [simpl; lia|].
  apply (finally_runs_once_and_keeps_outcome
           (mkState [Pending []; Rejected (VStr "busy")] [] [] [] [])
           VUndefined (Return (VNum 1)) 0 3 (fun _ => Return (VPromise 1)) true 2
           eq_refl eq_refl eq_refl (le_n 2)).
Defined.

(** C8, as stated, fails: a callback that throws makes the derived
    future fail with what it threw, although the operation succeeded;
    a subscriber of the derived future never gets the value. *)
Lemma finally_callback_throws :
  let s := mkState [Pending []] [] [] [] [] in
  let '(f', s1) := finally' (promisable VUndefined 0)
                     (Some (CUser 3 (fun _ => Throw (VStr "cleanup")))) s in
  let '(_, s2) := subscribe f' 1 s1 in
  let s3 := drain 6 (fulfill 0 (VNum 1) s2) in
  heap s3 !! 0 = Some (Fulfilled (VNum 1)) /\
  heap s3 !! _promise f' = Some (Rejected (VStr "cleanup")) /\
  heap s3 !! _promise f' <> heap s3 !! 0 /\
  queue s3 = [] /\
  log s3 = [ERun 1 VUndefined; ECall 3 VUndefined].
Proof. repeat split; discriminate. Qed.

(** ** [catch$] and links without a function *)

(** X1.  [f.catch$(h)], for a function [h] that hands back no promise:
    when the operation fails, [h] is called once, with the cause, in a
    microtask after the failure, and the derived future settles as
    that call completes: it succeeds with what [h] returns and fails
    with what [h] throws.  When the operation succeeds [h] is not
    called and the derived future succeeds with the same value. *)
Theorem catch_handles_failure_only (s : State) (i : val) (c : completion) (p : pid) (l : nat)
    (h : val -> completion) (late : bool) (n : nat) :
  queue s = [] ->
  heap s !! p = Some (Pending []) ->
  settlement_ok c ->
  (forall x, plain (h x) = true) ->
  let res := settle_around late p c (catch' (promisable i p) (Some (CUser l h))) s in
  log (snd res) = log s /\
  heap (drain (S n) (snd res)) !! _promise (fst res) = Some (settled (recovered h c)) /\
  log (drain (S n) (snd res))
  = log s ++ match c with Return _ => [] | Throw r => [ECall l r] end.
Proof.
  destruct s as [hp q st rq l0]; intros Hq Hp Hc Hh res; simpl in Hq, Hp; subst q res.
  destruct c as [v|r]; simpl in Hc; cbn [recovered].
  - destruct late; unfold settle_around; lib_finish.
    all: rewrite app_nil_r; reflexivity.
  - pose proof (Hh r) as Hhr. destruct (h r) as [z|e'] eqn:Ehr; simpl in Hhr;
      [apply negb_true_iff in Hhr|];
      destruct late; unfold settle_around; lib_finish.
Qed.

Lemma catch_handles_failure_only_witness :
  let s := mkState [Pending []] [] [] [] [] in
  let res := settle_around true 0 (Throw (VStr "down"))
               (catch' (promisable VUndefined 0)
                  (Some (CUser 1 (fun _ => Return (VNum 0%Z))))) s in
  queue s = [] /\
  heap s !! 0 = Some (Pending []) /\
  settlement_ok (Throw (VStr "down")) /\
  (forall x : val, plain (Return (VNum 0%Z)) = true) /\
  log (snd res) = [] /\
  heap (drain 2 (snd res)) !! _promise (fst res) = Some (Fulfilled (VNum 0%Z)) /\
  log (drain 2 (snd res)) = [ECall 1 (VStr "down")].
Proof.
  split; [reflexivity|]. split; [reflexivity|]. split; [exact I|].
  split; [intros _; reflexivity|].
  apply (catch_handles_failure_only (mkState [Pending []] [] [] [] []) VUndefined
           (Throw (VStr "down")) 0 1 (fun _ => Return (VNum 0%Z)) true 1
           eq_refl eq_refl I (fun _ => eq_refl)).
Defined.

(** X2.  [f.then$(g).catch$(h)], for functions that hand back no
    promise: when [f] fails, [g] is not called and the outcome is that
    of [h] on the cause; when [f] succeeds the outcome is what [g]
    returns, and [h] is called only if [g] throws, with what it threw. *)
Theorem then_catch_settles (s : State) (i : val) (c : completion) (p : pid)
    (lg lh : nat) (g h : val -> completion) (late : bool) (n : nat) :
  queue s = [] ->
  heap s !! p = Some (Pending []) ->
  (forall x, plain (g x) = true) ->
  (forall x, plain (h x) = true) ->
  let res := settle_around late p c
               (then_catch (promisable i p) (CUser lg g) (CUser lh h)) s in
  heap (drain (2 + n) (snd res)) !! _promise (fst res)
  = Some (settled (recover_result g h c)) /\
  log (drain (2 + n) (snd res)) = log s ++ recover_calls lg lh g c.
Proof.
  destruct s as [hp q st rq l0]; intros Hq Hp Hg Hh res; simpl in Hq, Hp; subst q res.
  destruct c as [v|r]; cbn [recover_result recover_calls].
  - pose proof (Hg v) as Hgv. destruct (g v) as [y|e] eqn:Egv; simpl in Hgv.
    + apply negb_true_iff in Hgv.
      destruct late; unfold settle_around, then_catch; lib_finish.
    + pose proof (Hh e) as Hhe. destruct (h e) as [z|e'] eqn:Ehe; simpl in Hhe;
        [apply negb_true_iff in Hhe|];
        destruct late; unfold settle_around, then_catch; lib_finish.
  - pose proof (Hh r) as Hhr. destruct (h r) as [z|e'] eqn:Ehr; simpl in Hhr;
      [apply negb_true_iff in Hhr|];
      destruct late; unfold settle_around, then_catch; lib_finish.
Qed.

Lemma then_catch_settles_witness :
  let s := mkState [Pending []] [] [] [] [] in
  let res := settle_around false 0 (Return (VStr "seven"))
               (then_catch (promisable VUndefined 0) (CUser 1 successor)
                  (CUser 2 (fun _ => Return VNull))) s in
  queue s = [] /\
  heap s !! 0 = Some (Pending []) /\
  (forall x, plain (successor x) = true) /\
  (forall x : val, plain (Return VNull) = true) /\
  heap (drain 3 (snd res)) !! _promise (fst res) = Some (Fulfilled VNull) /\
  log (drain 3 (snd res))
  = [ECall 1 (VStr "seven"); ECall 2 (VError "TypeError" "not a number")].
Proof.
  assert (Hs : forall x, plain (successor x) = true) by (intros []; reflexivity).
  split; [reflexivity|]. split; [reflexivity|]. split; [exact Hs|].
  split; [intros _; reflexivity|].
  apply (then_catch_settles (mkState [Pending []] [] [] [] []) VUndefined
           (Return (VStr "seven")) 0 1 2 successor (fun _ => Return VNull) false 1
           eq_refl eq_refl Hs (fun _ => eq_refl)).
Defined.

(** X3.  [then$], [catch$] and [finally$] called without a function
    derive a future that settles as the receiver does, with the same
    value or the same reason, and nothing is called. *)
Theorem bare_links_pass_through (s : State) (i : val) (c : completion) (p : pid)
    (late : bool) (n : nat) :
  queue s = [] ->
  heap s !! p = Some (Pending []) ->
  settlement_ok c ->
  let f := promisable i p in
  let r1 := settle_around late p c (then' f None) s in
  let r2 := settle_around late p c (catch' f None) s in
  let r3 := settle_around late p c (finally' f None) s in
  (heap (drain (S n) (snd r1)) !! _promise (fst r1) = Some (settled c) /\
   log (drain (S n) (snd r1)) = log s) /\
  (heap (drain (S n) (snd r2)) !! _promise (fst r2) = Some (settled c) /\
   log (drain (S n) (snd r2)) = log s) /\
  (heap (drain (S n) (snd r3)) !! _promise (fst r3) = Some (settled c) /\
   log (drain (S n) (snd r3)) = log s).
Proof.
  destruct s as [h q st rq lg]; intros Hq Hp Hc f r1 r2 r3; simpl in Hq, Hp;
    subst q f r1 r2 r3.
  destruct late, c as [v|r]; simpl in Hc; unfold settle_around; lib_finish.
Qed.

Lemma bare_links_pass_through_witness :
  let s := mkState [Pending []] [] [] [] [] in
  let f := promisable VUndefined 0 in
  let c := Throw (VStr "down") in
  let r1 := settle_around true 0 c (then' f None) s in
  let r2 := settle_around true 0 c (catch' f None) s in
  let r3 := settle_around true 0 c (finally' f None) s in
  queue s = [] /\
  heap s !! 0 = Some (Pending []) /\
  settlement_ok c /\
  (heap (drain 1 (snd r1)) !! _promise (fst r1) = Some (Rejected (VStr "down")) /\
   log (drain 1 (snd r1)) = []) /\
  (heap (drain 1 (snd r2)) !! _promise (fst r2) = Some (Rejected (VStr "down")) /\
   log (drain 1 (snd r2)) = []) /\
  (heap (drain 1 (snd r3)) !! _promise (fst r3) = Some (Rejected (VStr "down")) /\
   log (drain 1 (snd r3)) = []).
Proof.
  split; [reflexivity|]. split; [reflexivity|]. split; [exact I|].
  apply (bare_links_pass_through (mkState [Pending []] [] [] [] []) VUndefined
           (Throw (VStr "down")) 0 true 0 eq_refl eq_refl I).
Defined.

(** ** A function that hands back a promise *)

(** X4.  When the function given to [then$] returns a promise that is
    still pending, the derived future stays pending after the call and
    settles as that promise does, once it does: with its value, or
    with its reason.  The function is called once. *)
Theorem then_follows_returned_promise (s : State) (i v : val) (c : completion)
    (p t : pid) (l : nat) (g : val -> completion) (late : bool) (k n : nat) :
  queue s = [] ->
  heap s !! p = Some (Pending []) ->
  heap s !! t = Some (Pending []) ->
  p <> t ->
  g v = Return (VPromise t) ->
  settlement_ok c ->
  let res := settle_around late p (Return v)
               (then' (promisable i p) (Some (CUser l g))) s in
  let s1 := drain (2 + k) (snd res) in
  let s2 := drain (S n) (settle t c s1) in
  heap s1 !! _promise (fst res) = Some (Pending []) /\
  heap s2 !! _promise (fst res) = Some (settled c) /\
  log s2 = log s ++ [ECall l v].
Proof.
  destruct s as [h q st rq lg]; intros Hq Hp Ht Hne Hg Hc res s1 s2; simpl in Hq, Hp, Ht;
    subst q res s1 s2.
  destruct late, c as [w|e]; simpl in Hc; unfold settle_around; lib_finish.
Qed.

Lemma then_follows_returned_promise_witness :
  let s := mkState [Pending []; Pending []] [] [] [] [] in
  let res := settle_around true 0 (Return (VNum 5%Z))
               (then' (promisable VUndefined 0) (Some (CUser 1 hands_promise))) s in
  let s1 := drain 2 (snd res) in
  let s2 := drain 1 (settle 1 (Return (VStr "later")) s1) in
  queue s = [] /\
  heap s !! 0 = Some (Pending []) /\
  heap s !! 1 = Some (Pending []) /\
  0 <> 1 /\
  hands_promise (VNum 5%Z) = Return (VPromise 1) /\
  settlement_ok (Return (VStr "later")) /\
  heap s1 !! _promise (fst res) = Some (Pending []) /\
  heap s2 !! _promise (fst res) = Some (Fulfilled (VStr "later")) /\
  log s2 = [ECall 1 (VNum 5%Z)].
Proof.
  split; [reflexivity|]. split; [reflexivity|]. split; [reflexivity|].
  split; [discriminate|]. split; [reflexivity|]. split; [reflexivity|].
  apply (then_follows_returned_promise (mkState [Pending []; Pending []] [] [] [] [])
           VUndefined (VNum 5%Z) (Return (VStr "later")) 0 1 1 hands_promise true 0 0
           eq_refl eq_refl eq_refl (fun H => O_S 0 H) eq_refl eq_refl).
Defined.

(** ** Subscribers *)

(** X5.  A subscriber that unsubscribes before the settlement is run
    with the placeholder and never again, whatever the outcome; the
    operation is not cancelled: its promise settles all the same, and
    no request is issued for any of this. *)
Theorem unsubscribed_sees_nothing_more (s : State) (i : val) (c : completion)
    (p : pid) (sub : nat) (n : nat) :
  queue s = [] ->
  heap s !! p = Some (Pending []) ->
  let r := subscribe (promisable i p) sub s in
  let s1 := unsubscribe (fst r) sub (snd r) in
  let s2 := drain (S n) (settle p c s1) in
  log s2 = log s ++ [ERun sub i] /\
  heap s2 !! p = Some (settled c) /\
  requests s2 = requests s.
Proof.
  destruct s as [h q st rq lg]; intros Hq Hp r s1 s2; simpl in Hq, Hp; subst q r s1 s2.
  destruct c as [v|e]; [destruct (safe_not_equal i v) eqn:E|]; lib_finish.
Qed.

Lemma unsubscribed_sees_nothing_more_witness :
  let s := mkState [Pending []] [] [] [] [] in
  let r := subscribe (promisable VUndefined 0) 1 s in
  let s1 := unsubscribe (fst r) 1 (snd r) in
  let s2 := drain 2 (settle 0 (Return (VNum 7%Z)) s1) in
  queue s = [] /\
  heap s !! 0 = Some (Pending []) /\
  log s2 = [ERun 1 VUndefined] /\
  heap s2 !! 0 = Some (Fulfilled (VNum 7%Z)) /\
  requests s2 = [].
Proof.
  split; [reflexivity|]. split; [reflexivity|].
  apply (unsubscribed_sees_nothing_more (mkState [Pending []] [] [] [] []) VUndefined
           (Return (VNum 7%Z)) 0 1 1 eq_refl eq_refl).
Defined.

(** X6.  Two subscribers, one of [f] and one of [f.startWith$(j)]:
    each is run with its own placeholder at subscribe time and, after
    the settlement, with the value, if it differs from its
    placeholder; they are served in the order they subscribed, a
    failure reaches neither, and no request is issued. *)
Theorem two_subscribers (s : State) (i j : val) (c : completion) (p : pid)
    (a b : nat) (late : bool) (n : nat) :
  queue s = [] ->
  heap s !! p = Some (Pending []) ->
  let f := promisable i p in
  let both s0 := subscribe (startWith' f j) b (snd (subscribe f a s0)) in
  let res := settle_around late p c both s in
  log (snd res) = log s ++ [ERun a i; ERun b j] /\
  log (drain (2 + n) (snd res))
  = log s ++ [ERun a i; ERun b j] ++
      match c with
      | Return v =>
          (if safe_not_equal i v then [EInvalidate a; ERun a v] else []) ++
          (if safe_not_equal j v then [EInvalidate b; ERun b v] else [])
      | Throw _ => []
      end /\
  requests (drain (2 + n) (snd res)) = requests s.
Proof.
  destruct s as [hp q st rq l0]; intros Hq Hp f both res; simpl in Hq, Hp;
    subst q f both res; cbv beta.
  destruct c as [v|r].
  - destruct (safe_not_equal i v) eqn:Ei; destruct (safe_not_equal j v) eqn:Ej;
      destruct late; unfold settle_around, startWith'; lib_finish.
  - destruct late; unfold settle_around, startWith'; lib_finish.
Qed.

Lemma two_subscribers_witness :
  let s := mkState [Pending []] [] [] [] [] in
  let f := promisable VUndefined 0 in
  let both s0 := subscribe (startWith' f (VNum 7%Z)) 2 (snd (subscribe f 1 s0)) in
  let res := settle_around true 0 (Return (VNum 7%Z)) both s in
  queue s = [] /\
  heap s !! 0 = Some (Pending []) /\
  log (snd res) = [ERun 1 VUndefined; ERun 2 (VNum 7%Z)] /\
  log (drain 2 (snd res))
  = [ERun 1 VUndefined; ERun 2 (VNum 7%Z); EInvalidate 1; ERun 1 (VNum 7%Z)] /\
  requests (drain 2 (snd res)) = [].
Proof.
  split; [reflexivity|]. split; [reflexivity|].
  apply (two_subscribers (mkState [Pending []] [] [] [] []) VUndefined (VNum 7%Z)
           (Return (VNum 7%Z)) 0 1 2 true 0 eq_refl eq_refl).
Defined.

(** ** Futures derived from the same future *)

(** X16.  Two futures derived from the same one with [then$] do not
    affect each other: each function is called once with the value, in
    the order of the two [then$] calls, each derived future settles as
    its own function completes, so that one may fail while the other
    succeeds, and a failure of the operation reaches both. *)
Theorem siblings_are_independent (s : State) (i : val) (c : completion) (p : pid)
    (la lb : nat) (a b : val -> completion) (late : bool) (n : nat) :
  queue s = [] ->
  heap s !! p = Some (Pending []) ->
  (forall x, plain (a x) = true) ->
  (forall x, plain (b x) = true) ->
  let res := settle_around late p c
               (siblings (promisable i p) (CUser la a) (CUser lb b)) s in
  let s' := drain (2 + n) (snd res) in
  heap s' !! _promise (fst (fst res)) = Some (settled (mapped a c)) /\
  heap s' !! _promise (snd (fst res)) = Some (settled (mapped b c)) /\
  log s' = log s ++ match c with
                    | Return v => [ECall la v; ECall lb v]
                    | Throw _ => []
                    end.
Proof.
  destruct s as [h q st rq lg]; intros Hq Hp Ha Hb res s'; simpl in Hq, Hp; subst q res s'.
  destruct c as [v|r]; cbn [mapped].
  - pose proof (Ha v) as Hav. pose proof (Hb v) as Hbv.
    destruct (a v) as [x|e] eqn:Ea; destruct (b v) as [y|e'] eqn:Eb;
      simpl in Hav, Hbv;
      try apply negb_true_iff in Hav; try apply negb_true_iff in Hbv;
      destruct late; unfold settle_around, siblings; lib_finish.
  - destruct late; unfold settle_around, siblings; lib_finish.
    all: rewrite app_nil_r; reflexivity.
Qed.

Lemma siblings_are_independent_witness :
  let s := mkState [Pending []] [] [] [] [] in
  let res := settle_around true 0 (Return (VNum 1%Z))
               (siblings (promisable VUndefined 0) (CUser 1 successor)
                  (CUser 2 (fun _ => Throw (VStr "no")))) s in
  let s' := drain 2 (snd res) in
  queue s = [] /\
  heap s !! 0 = Some (Pending []) /\
  (forall x, plain (successor x) = true) /\
  (forall x : val, plain (Throw (VStr "no")) = true) /\
  heap s' !! _promise (fst (fst res)) = Some (Fulfilled (VNum 2%Z)) /\
  heap s' !! _promise (snd (fst res)) = Some (Rejected (VStr "no")) /\
  log s' = [ECall 1 (VNum 1%Z); ECall 2 (VNum 1%Z)].
Proof.
  assert (Hs : forall x, plain (successor x) = true) by (intros []; reflexivity).
  split; [reflexivity|]. split; [reflexivity|]. split; [exact Hs|].
  split; [intros _; reflexivity|].
  apply (siblings_are_independent (mkState [Pending []] [] [] [] []) VUndefined
           (Return (VNum 1%Z)) 0 1 2 successor (fun _ => Throw (VStr "no")) true 0
           eq_refl eq_refl Hs (fun _ => eq_refl)).
Defined.

(** ** Requests, end to end *)

Lemma is_json_not_promise v : is_json v = true -> is_promise v = false.
Proof. destruct v; try reflexivity; discriminate. Qed.

Lemma is_json_not_undefined v : is_json v = true -> safe_not_equal VUndefined v = true.
Proof. destruct v; try reflexivity; discriminate. Qed.

(** X7.  [fetch$] issues its request at the call, with the input and
    the options as given, and classifies nothing: its future settles
    as the promise of [fetch] does, and a subscriber gets the
    placeholder [undefined] and then whatever the promise is fulfilled
    with, a response that is not ok included. *)
Theorem fetch_delivers_unclassified (s : State) (input : val) (init : option obj)
    (c : completion) (sub n : nat) :
  queue s = [] ->
  settlement_ok c ->
  let res := fetch' input init s in
  let s1 := snd (subscribe (fst res) sub (snd res)) in
  let s2 := drain (S n) (settle (length (heap s)) c s1) in
  requests (snd res) = requests s ++ [mkRequest input init] /\
  requests s2 = requests s ++ [mkRequest input init] /\
  heap s2 !! _promise (fst res) = Some (settled c) /\
  log s2 = log s ++ ERun sub VUndefined ::
             match c with
             | Return v =>
                 if safe_not_equal VUndefined v then [EInvalidate sub; ERun sub v] else []
             | Throw _ => []
             end.
Proof.
  destruct s as [h q st rq lg]; intros Hq Hc res s1 s2; simpl in Hq; subst q res s1 s2.
  destruct c as [v|e]; simpl in Hc.
  - destruct (safe_not_equal VUndefined v) eqn:E; lib_finish.
  - lib_finish.
Qed.

Lemma fetch_delivers_unclassified_witness :
  let r := mkResponse false 404%Z "Not Found" [] "gone" in
  let res := fetch' (VStr "/posts") None initial in
  let s1 := snd (subscribe (fst res) 1 (snd res)) in
  let s2 := drain 1 (settle 0 (Return (VResponse r)) s1) in
  queue initial = [] /\
  settlement_ok (Return (VResponse r)) /\
  requests (snd res) = [mkRequest (VStr "/posts") None] /\
  requests s2 = [mkRequest (VStr "/posts") None] /\
  heap s2 !! _promise (fst res) = Some (Fulfilled (VResponse r)) /\
  log s2 = [ERun 1 VUndefined; EInvalidate 1; ERun 1 (VResponse r)].
Proof.
  split; [reflexivity|]. split; [reflexivity|].
  apply (fetch_delivers_unclassified initial (VStr "/posts") None
           (Return (VResponse (mkResponse false 404%Z "Not Found" [] "gone"))) 1 0
           eq_refl eq_refl).
Defined.

(** X8.  [fetchErrorHandled$], which [get$], [post$], [put$],
    [patch$] and [delete$] call: one request is issued, and once the
    response has arrived the future settles to [classified r], for
    every response and whatever [json()] and [text()] give for its
    body: fulfilled with the response when it is ok; else rejected
    with the [HttpError] of its status, status text and body, or with
    the rejection of [json()].  A subscriber gets the placeholder
    [undefined] and then the response if it is ok, and nothing more
    if it is not. *)
Theorem fetchErrorHandled_delivers (s : State) (input : val) (init : option obj)
    (r : response) (sub n : nat) :
  queue s = [] ->
  let res := fetchErrorHandled' input init s in
  let s1 := snd (subscribe (fst res) sub (snd res)) in
  let s2 := drain (5 + n) (fulfill (length (heap s)) (VResponse r) s1) in
  heap s2 !! _promise (fst res) = Some (classified r) /\
  log s2 = log s ++ ERun sub VUndefined :: delivered sub (classified r) /\
  requests s2 = requests s ++ [mkRequest input init].
Proof.
  destruct s as [h q st rq lg]; intros Hq res s1 s2; simpl in Hq; subst q res s1 s2.
  unfold classified, wants_json.
  destruct (ok r) eqn:Eok.
  - lib_finish.
  - destruct (Headers_get "content-type" (headers r)) as [ct|] eqn:Ect.
    + destruct (includes "application/json" ct) eqn:Einc.
      * destruct (bodyJson r) as [body|] eqn:Ebody; lib_finish.
      * lib_finish.
    + lib_finish.
Qed.

Lemma fetchErrorHandled_delivers_witness :
  let r := mkResponse false 500%Z "Server Error" [("content-type", "text/plain")] "boom" in
  let res := fetchErrorHandled' (VStr "/posts") None initial in
  let s1 := snd (subscribe (fst res) 1 (snd res)) in
  let s2 := drain 5 (fulfill 0 (VResponse r) s1) in
  queue initial = [] /\
  heap s2 !! _promise (fst res)
  = Some (Rejected (HttpError 500%Z "Server Error" (VStr "boom"))) /\
  log s2 = [ERun 1 VUndefined] /\
  requests s2 = [mkRequest (VStr "/posts") None].
Proof.
  split; [reflexivity|].
  apply (fetchErrorHandled_delivers initial (VStr "/posts") None
           (mkResponse false 500%Z "Server Error" [("content-type", "text/plain")] "boom")
           1 0 eq_refl).
Defined.

(** X9.  [fetchJson$], which the five Json verbs call: one request is
    issued, and once the response has arrived the future settles to
    [decoded r], for every response and whatever JSON value [json()]
    gives for its body: fulfilled with that value when the response is
    ok, rejected with the [SyntaxError] when [json()] rejects, and
    rejected as [fetchErrorHandled$] rejects when the response is not
    ok.  A subscriber gets the placeholder [undefined] and then the
    value of a success, and nothing more of a failure. *)
Theorem fetchJson_delivers (s : State) (input : val) (init : option obj)
    (r : response) (sub n : nat) :
  queue s = [] ->
  gives_json r ->
  let res := fetchJson' input init s in
  let s1 := snd (subscribe (fst res) sub (snd res)) in
  let s2 := drain (9 + n) (fulfill (length (heap s)) (VResponse r) s1) in
  heap s2 !! _promise (fst res) = Some (decoded r) /\
  log s2 = log s ++ ERun sub VUndefined :: delivered sub (decoded r) /\
  requests s2 = requests s ++ [mkRequest input init].
Proof.
  destruct s as [h q st rq lg]; intros Hq Hjson res s1 s2; simpl in Hq; subst q res s1 s2.
  unfold gives_json in Hjson. unfold decoded, classified, wants_json.
  destruct (ok r) eqn:Eok.
  - destruct (bodyJson r) as [body|] eqn:Ebody.
    + pose proof (is_json_not_promise _ Hjson) as Hb1.
      pose proof (is_json_not_undefined _ Hjson) as Hb2.
      lib_finish.
    + lib_finish.
  - destruct (Headers_get "content-type" (headers r)) as [ct|] eqn:Ect.
    + destruct (includes "application/json" ct) eqn:Einc.
      * destruct (bodyJson r) as [body|] eqn:Ebody; lib_finish.
      * lib_finish.
    + lib_finish.
Qed.

Lemma fetchJson_delivers_witness :
  let r := mkResponse true 200%Z "OK" [("content-type", "application/json")] "[1]" in
  let res := fetchJson' (VStr "/posts") None initial in
  let s1 := snd (subscribe (fst res) 1 (snd res)) in
  let s2 := drain 9 (fulfill 0 (VResponse r) s1) in
  queue initial = [] /\
  gives_json r /\
  heap s2 !! _promise (fst res) = Some (Fulfilled (VArr [VNum 1%Z])) /\
  log s2 = [ERun 1 VUndefined; EInvalidate 1; ERun 1 (VArr [VNum 1%Z])] /\
  requests s2 = [mkRequest (VStr "/posts") None].
Proof.
  split; [reflexivity|]. split; [reflexivity|].
  apply (fetchJson_delivers initial (VStr "/posts") None
           (mkResponse true 200%Z "OK" [("content-type", "application/json")] "[1]")
           1 0 eq_refl eq_refl).
Defined.

(** X10.  A failure of the transport is not classified: when the
    promise of [fetch] is rejected with [e], the futures of
    [fetchErrorHandled$] and of [fetchJson$] are rejected with [e]
    itself, neither the classification nor [response.json()] runs, and
    a subscriber is left with the placeholder. *)
Theorem transport_failure_is_passed_on (s : State) (input : val) (init : option obj)
    (e : val) (sub n : nat) :
  queue s = [] ->
  let mid := fetchErrorHandled' input init s in
  let res := fetchJson' input init s in
  let s1 := snd (subscribe (fst res) sub (snd res)) in
  let s2 := drain (3 + n) (reject (length (heap s)) e s1) in
  heap s2 !! _promise (fst mid) = Some (Rejected e) /\
  heap s2 !! _promise (fst res) = Some (Rejected e) /\
  length (heap s2) = length (heap s1) /\
  log s2 = log s ++ [ERun sub VUndefined].
Proof.
  destruct s as [h q st rq lg]; intros Hq mid res s1 s2; simpl in Hq; subst q mid res s1 s2.
  lib_finish.
Qed.

Lemma transport_failure_is_passed_on_witness :
  let mid := fetchErrorHandled' (VStr "/posts") None initial in
  let res := fetchJson' (VStr "/posts") None initial in
  let s1 := snd (subscribe (fst res) 1 (snd res)) in
  let s2 := drain 3 (reject 0 (VError "TypeError" "Failed to fetch") s1) in
  queue initial = [] /\
  heap s2 !! _promise (fst mid) = Some (Rejected (VError "TypeError" "Failed to fetch")) /\
  heap s2 !! _promise (fst res) = Some (Rejected (VError "TypeError" "Failed to fetch")) /\
  length (heap s2) = length (heap s1) /\
  log s2 = [ERun 1 VUndefined].
Proof.
  split; [reflexivity|].
  apply (transport_failure_is_passed_on initial (VStr "/posts") None
           (VError "TypeError" "Failed to fetch") 1 0 eq_refl).
Defined.
